(** * Presence reconciliation of nanoanim: [AnimatePresence] and [PresenceChild]

    A shallow embedding of [src/presence/AnimatePresence.tsx] and of
    [src/presence/PresenceChild.tsx].

    - React elements are values of [ReactElement]; a JavaScript array is a
      [list], a [Map] keyed by strings a [gmap], a [Set] the list of its
      members in insertion order.
    - The arrays that the component keeps reachable ([filteredChildren] and
      [childrenToRender] of every invocation) live in a store and are named by
      an [ArrayRef]: [presentChildren.current] is such a reference, so the
      in-place [splice] of [onExit] is seen through every alias.
    - A closure is the record of what it captured: [onExit] captures the
      invocation that created it (its [exiting] set, its [filteredChildren],
      its [onExitComplete] prop) and the key.
    - Calls into the host ([forceRender], the caller's [onExitComplete]) are
      returned as a list of [Event]s. *)

From Stdlib Require Import ZArith Lia.
From stdpp Require Import base option list gmap strings.

#[local] Set Warnings "-clear-no-such-hyp".

Local Open Scope string_scope.
Local Open Scope list_scope.
Local Open Scope nat_scope.

(** ** JavaScript arrays and sets *)

Section js_array.
Context {A : Type}.

(** [Array.prototype.findIndex]: the first index whose element satisfies
    the predicate, [-1] when there is none. *)
Definition findIndex (P : A → Prop) `{∀ x, Decision (P x)} (l : list A) : Z :=
  match list_find P l with
  | Some (i, _) => Z.of_nat i
  | None => (-1)%Z
  end.

(** [Array.prototype.indexOf] (strict equality on the elements). *)
Definition indexOf `{EqDecision A} (x : A) (l : list A) : Z :=
  findIndex (λ y, y = x) l.

(** [Array.prototype.splice(start, deleteCount, ...items)]: a negative
    [start] counts from the end, and the start is clamped to the array. *)
Definition splice (start : Z) (deleteCount : nat) (items l : list A) : list A :=
  let len := Z.of_nat (length l) in
  let from :=
    Z.to_nat (if (start <? 0)%Z then Z.max (len + start) 0 else Z.min start len) in
  take from l ++ items ++ drop (from + deleteCount) l.
End js_array.

(** A [Set<ComponentKey>]: members in insertion order, without repetition. *)
Definition Set_add (key : string) (s : list string) : list string :=
  if decide (key ∈ s) then s else s ++ [key].

Definition Set_delete (key : string) (s : list string) : list string :=
  filter (λ k, k ≠ key) s.

Definition Set_has (key : string) (s : list string) : bool :=
  bool_decide (key ∈ s).

(** ** React elements *)

Inductive Mode := sync | popLayout.

(** The closure [onExit] of AnimatePresence.tsx:162: the invocation of
    [AnimatePresence] that created it and the [key] it was created for. *)
Record Callback := OnExit { cb_pass : nat; cb_key : string }.

(** An element handed in by the caller, or [<PresenceChild ...>] as built by
    [AnimatePresence]. [key] is [None] for React's [null]; an absent prop is
    [None] as well. *)
Inductive ReactElement :=
| Element (key : option string) (content : nat)
| PresenceChild (key : option string) (isPresent : bool)
    (onExitComplete : option Callback) (initial : option bool)
    (custom : option nat) (mode : Mode) (children : ReactElement).

Inductive ReactNode :=
| NodeElement (e : ReactElement)
| NodeText (s : string)
| NodeNull.

Global Instance Mode_eq_dec : EqDecision Mode.
Proof. solve_decision. Defined.
Global Instance Callback_eq_dec : EqDecision Callback.
Proof. solve_decision. Defined.
Global Instance ReactElement_eq_dec : EqDecision ReactElement.
Proof. solve_decision. Defined.

Definition element_key (e : ReactElement) : option string :=
  match e with
  | Element key _ => key
  | PresenceChild key _ _ _ _ _ _ => key
  end.

(** AnimatePresence.tsx:19, [child.key || '']. *)
Definition getChildKey (child : ReactElement) : string :=
  match element_key child with
  | Some k => if decide (k = "") then "" else k
  | None => ""
  end.

(** AnimatePresence.tsx:21. *)
Definition updateChildLookup (children : list ReactElement)
    (allChildren : gmap string ReactElement) : gmap string ReactElement :=
  foldl (λ m child, <[getChildKey child := child]> m) allChildren children.

(** AnimatePresence.tsx:31. *)
Definition onlyElements (children : list ReactNode) : list ReactElement :=
  omap (λ n, match n with NodeElement e => Some e | _ => None end) children.

(** [React.cloneElement(child)] without overrides: a copy with the same key
    and props. *)
Definition cloneElement (e : ReactElement) : ReactElement := e.

(** ** The Tree Coordinator: [AnimatePresence] *)

(** The two arrays an invocation of [AnimatePresence] leaves reachable. *)
Inductive ArrayRef :=
| filteredChildrenOf (pass : nat)
| renderedChildrenOf (pass : nat).

Global Instance ArrayRef_eq_dec : EqDecision ArrayRef.
Proof. solve_decision. Defined.

(** The variables of one invocation that its closures and effects capture:
    [filteredChildren] (the array built by [onlyElements]),
    [renderedChildren] (the array built by the [map] of line 200),
    [childrenToRender] (which of the two the variable is bound to when the
    invocation returns), the [exiting] set of line 88 and the
    [onExitComplete] prop. *)
Record Frame := MkFrame {
  filteredChildren : list ReactElement;
  renderedChildren : list ReactElement;
  childrenToRender : ArrayRef;
  exiting : list string;
  onExitCompleteProp : option nat;
}.

(** What lives across invocations: the refs [presentChildren], [allChildren],
    [isInitialRender] and [isMounted], and the frames still captured. *)
Record Coordinator := MkCoordinator {
  frames : list Frame;
  presentChildren : ArrayRef;
  allChildren : gmap string ReactElement;
  isInitialRender : bool;
  isMounted : bool;
}.

Record AnimatePresenceProps := MkProps {
  props_children : list ReactNode;
  props_custom : option nat;
  props_initial : bool;
  props_onExitComplete : option nat;
  props_mode : Mode;
}.

(** Modelled from the spec: [useForceUpdate] is not among the sources; its
    [forceRender] is the host's primitive that requests a re-evaluation
    pass, and calling it is recorded as the event [ForceRender].

    The other calls that leave the component are recorded as well: the
    caller's [onExitComplete()] from [onExit], and the call of an [onExit]
    itself by a [PresenceChild]. *)
Inductive Event :=
| ForceRender
| ExitComplete (f : nat)
| Fired (cb : Callback).

Global Instance Event_eq_dec : EqDecision Event.
Proof. solve_decision. Defined.

Definition set_exiting (ex : list string) (f : Frame) : Frame :=
  MkFrame (filteredChildren f) (renderedChildren f) (childrenToRender f) ex
    (onExitCompleteProp f).

Definition set_filteredChildren (l : list ReactElement) (f : Frame) : Frame :=
  MkFrame l (renderedChildren f) (childrenToRender f) (exiting f)
    (onExitCompleteProp f).

Definition set_renderedChildren (l : list ReactElement) (f : Frame) : Frame :=
  MkFrame (filteredChildren f) l (childrenToRender f) (exiting f)
    (onExitCompleteProp f).

Definition array_at (r : ArrayRef) (fs : list Frame) : list ReactElement :=
  match r with
  | filteredChildrenOf p => from_option filteredChildren [] (fs !! p)
  | renderedChildrenOf p => from_option renderedChildren [] (fs !! p)
  end.

Definition array_set (r : ArrayRef) (l : list ReactElement) (fs : list Frame)
    : list Frame :=
  match r with
  | filteredChildrenOf p => alter (set_filteredChildren l) p fs
  | renderedChildrenOf p => alter (set_renderedChildren l) p fs
  end.

Definition exiting_at (p : nat) (fs : list Frame) : list string :=
  from_option exiting [] (fs !! p).

(** The state of a freshly mounted component: [useRef(childrenToRender)]
    binds [presentChildren.current] to the first [filteredChildren]. *)
Definition mounted : Coordinator :=
  MkCoordinator [] (filteredChildrenOf 0) ∅ true false.

(** The three shapes of [<PresenceChild>] (lines 120, 186 and 205). *)
Definition wrapInitial (initial : bool) (mode : Mode) (child : ReactElement) :=
  PresenceChild (Some (getChildKey child)) true None
    (if initial then None else Some false) None mode child.

Definition wrapExiting (onExit : Callback) (custom : option nat) (mode : Mode)
    (child : ReactElement) :=
  PresenceChild (Some (getChildKey child)) false (Some onExit) None custom mode child.

Definition wrapPresent (mode : Mode) (child : ReactElement) :=
  PresenceChild (Some (getChildKey child)) true None None None mode child.

(** Lines 142-149: the diff of the committed keys against the target keys. *)
Definition markExiting (presentKeys targetKeys : list string) : list string :=
  foldl (λ ex key, if decide (indexOf key targetKeys = (-1)%Z)
                   then Set_add key ex else ex)
    [] presentKeys.

(** The body of [exiting.forEach] (lines 153-196) for one key. *)
Definition spliceExitingKey (p : nat) (props : AnimatePresenceProps)
    (allChildren : gmap string ReactElement) (presentKeys targetKeys : list string)
    (ctr : list ReactElement) (key : string) : list ReactElement :=
  if decide (indexOf key targetKeys ≠ (-1)%Z) then ctr
  else match allChildren !! key with
       | None => ctr
       | Some child =>
           let insertionIndex := indexOf key presentKeys in
           splice insertionIndex 0
             [wrapExiting (OnExit p key) (props_custom props) (props_mode props) child]
             ctr
       end.

(** Lines 200-209. *)
Definition wrapUnlessExiting (mode : Mode) (ex : list string)
    (child : ReactElement) : ReactElement :=
  if match element_key child with Some key => Set_has key ex | None => false end
  then child else wrapPresent mode child.

(** One invocation of [AnimatePresence]: the frame it leaves behind and the
    elements it returns. *)
Definition AnimatePresence (props : AnimatePresenceProps) (s : Coordinator)
    : Coordinator * list ReactElement :=
  let p := length (frames s) in
  let filtered := onlyElements (props_children props) in
  let push f :=
    MkCoordinator (frames s ++ [f]) (presentChildren s) (allChildren s)
      (isInitialRender s) (isMounted s) in
  if isInitialRender s then
    (push (MkFrame filtered [] (filteredChildrenOf p) [] (props_onExitComplete props)),
     wrapInitial (props_initial props) (props_mode props) <$> filtered)
  else
    let presentKeys := getChildKey <$> array_at (presentChildren s) (frames s) in
    let targetKeys := getChildKey <$> filtered in
    let ex := markExiting presentKeys targetKeys in
    let spliced :=
      foldl (spliceExitingKey p props (allChildren s) presentKeys targetKeys)
        filtered ex in
    let rendered := wrapUnlessExiting (props_mode props) ex <$> spliced in
    (push (MkFrame filtered rendered (renderedChildrenOf p) ex
             (props_onExitComplete props)),
     if decide (ex = []) then cloneElement <$> rendered else rendered).

(** Lines 103-108, the layout effect of invocation [p].

    Modelled from the spec: [useIsomorphicLayoutEffect] and [useIsMounted]
    are not among the sources; the first runs its callback when the host
    commits the invocation, the second tracks the mount state in the ref
    [isMounted], which is set in the same phase. *)
Definition layoutEffect (p : nat) (s : Coordinator) : Coordinator :=
  match frames s !! p with
  | None => s
  | Some f =>
      MkCoordinator (frames s) (childrenToRender f)
        (updateChildLookup (filteredChildren f) (allChildren s)) false true
  end.

(** Lines 162-181, the closure [onExit]. *)
Definition onExit (cb : Callback) (s : Coordinator) : Coordinator * list Event :=
  let p := cb_pass cb in
  let key := cb_key cb in
  match frames s !! p with
  | None => (s, [])
  | Some f =>
      let all' := delete key (allChildren s) in
      let ex' := Set_delete key (exiting f) in
      let fs1 := alter (set_exiting ex') p (frames s) in
      let present := array_at (presentChildren s) fs1 in
      let removeIndex :=
        findIndex (λ presentChild, element_key presentChild = Some key) present in
      let fs2 := array_set (presentChildren s) (splice removeIndex 1 [] present) fs1 in
      if decide (ex' = []) then
        let s' := MkCoordinator fs2 (filteredChildrenOf p) all'
                    (isInitialRender s) (isMounted s) in
        if isMounted s then
          (s', ForceRender ::
               match onExitCompleteProp f with
               | Some g => [ExitComplete g]
               | None => []
               end)
        else (s', [])
      else
        (MkCoordinator fs2 (presentChildren s) all' (isInitialRender s) (isMounted s),
         [])
  end.

(** Lines 110-114, the teardown.

    Modelled from the spec: [useUnmountEffect] is not among the sources;
    which invocation's callback it runs at teardown, and so whose [exiting]
    set is cleared, is the parameter [p]. [useIsMounted] marks the component
    unmounted. *)
Definition unmountEffect (p : nat) (s : Coordinator) : Coordinator :=
  MkCoordinator (alter (set_exiting []) p (frames s)) (presentChildren s) ∅ true false.

(** One evaluation pass as far as the coordinator goes: the invocation and
    its layout effect. *)
Definition pass (props : AnimatePresenceProps) (s : Coordinator)
    : Coordinator * list ReactElement :=
  let '(s1, out) := AnimatePresence props s in
  (layoutEffect (length (frames s)) s1, out).

(** The committed-present sequence: the array [presentChildren.current]
    names. *)
Definition committed (s : Coordinator) : list ReactElement :=
  array_at (presentChildren s) (frames s).

(** The latest invocation, and its [exiting] set as it is now. *)
Definition latest (s : Coordinator) : nat := pred (length (frames s)).

Definition exitingSet (s : Coordinator) : list string :=
  exiting_at (latest s) (frames s).

(** ** The Completion Aggregator: [PresenceChild] *)

(** What one mounted [PresenceChild] keeps between its invocations: the map
    [presenceChildren] of [useConstant], and the context memoised by
    [useMemo(..., [isPresent])], which captured the props of the invocation
    that built it. The three hooks share the dependency [isPresent], whose
    last value is [ctx_isPresent]. *)
Record Instance := MkInstance {
  presenceChildren : gmap string bool;
  ctx_isPresent : bool;
  ctx_onExitComplete : option Callback;
  ctx_initial : option bool;
  ctx_custom : option nat;
}.

Definition set_presenceChildren (m : gmap string bool) (i : Instance) : Instance :=
  MkInstance m (ctx_isPresent i) (ctx_onExitComplete i) (ctx_initial i) (ctx_custom i).

(** Line 280: [presenceChildren.forEach((_, key) => presenceChildren.set(key, false))]. *)
Definition resetAll (m : gmap string bool) : gmap string bool :=
  (λ _, false) <$> m.

(** One invocation of [PresenceChild] (lines 239-302) on the instance of the
    previous invocation, [None] when the component mounts. The boolean tells
    whether the dependency [isPresent] changed, that is whether the effect of
    line 288 runs after the commit. *)
Definition PresenceChild_render (isPresent : bool)
    (onExitComplete : option Callback) (initial : option bool)
    (custom : option nat) (prev : option Instance) : Instance * bool :=
  match prev with
  | None =>
      (MkInstance (resetAll ∅) isPresent onExitComplete initial custom, true)
  | Some i =>
      if decide (ctx_isPresent i = isPresent) then (i, false)
      else (MkInstance (resetAll (presenceChildren i)) isPresent onExitComplete
              initial custom, true)
  end.

(** Lines 288-291: [!isPresent && !presenceChildren.size && onExitComplete &&
    onExitComplete()]; the result is the callback that is called, if any. *)
Definition PresenceChild_effect (isPresent : bool)
    (onExitComplete : option Callback) (i : Instance) : option Callback :=
  if negb isPresent && bool_decide (size (presenceChildren i) = 0)
  then onExitComplete else None.

(** Lines 256-264, [context.onExitComplete(childId)]. *)
Definition context_onExitComplete (childId : string) (i : Instance)
    : Instance * option Callback :=
  let m := <[childId := true]> (presenceChildren i) in
  (set_presenceChildren m i,
   if decide (map_Forall (λ _ isComplete, isComplete = true) m)
   then ctx_onExitComplete i else None).

(** Lines 265-268, [context.register(childId)] and the function it returns. *)
Definition context_register (childId : string) (i : Instance) : Instance :=
  set_presenceChildren (<[childId := false]> (presenceChildren i)) i.

Definition unregister (childId : string) (i : Instance) : Instance :=
  set_presenceChildren (delete childId (presenceChildren i)) i.

(** ** The host: React driving both components

    The host keeps one [PresenceChild] instance per key of the elements
    [AnimatePresence] returned last, invokes [AnimatePresence] and then the
    [PresenceChild]ren, commits (layout effect first, then the effects of
    the [PresenceChild]ren in order), and delivers the calls of nested
    participants to the context their [PresenceChild] memoised last: a
    participant is taken to read the context at the time it calls.

    React keeps one component per returned element and finds the component
    of an element again by the element's key among its siblings. Keeping
    the components in a map from keys follows React for siblings with
    distinct keys: every returned element then has an instance of its own
    ([reconcile_distinct]), and [AnimatePresence] returns such siblings in
    every pass as long as the children it is handed have distinct keys
    ([key_contract], [renderedOf_keys_NoDup]). React does not specify what
    it does with siblings that share a key; for such siblings the map holds
    a single instance, the one of the last of them, so what is stated of
    the instance of a key that several returned elements share is stated of
    that choice, and statements that depend on which component React keeps
    assume the key contract. *)
Record System := MkSystem {
  coordinator : Coordinator;
  instances : gmap string Instance;
  trace : list Event;
}.

Definition booted : System := MkSystem mounted ∅ [].

(** A callback called by a [PresenceChild] runs [onExit]. *)
Definition fire (cb : option Callback) (s : Coordinator) : Coordinator * list Event :=
  match cb with
  | None => (s, [])
  | Some cb => let '(s', evs) := onExit cb s in (s', Fired cb :: evs)
  end.

(** Invoking the [PresenceChild]ren of the returned elements: the instances
    after it, and the effects scheduled, in order. The component of an
    element is the one of the same key before the pass; an element whose key
    had no component mounts one. *)
Definition reconcile (old : gmap string Instance) (out : list ReactElement)
    : gmap string Instance * list (string * bool * option Callback) :=
  foldl (λ acc e,
           match e with
           | PresenceChild (Some k) isPresent onExitComplete initial custom _ _ =>
               let '(i, run) :=
                 PresenceChild_render isPresent onExitComplete initial custom (old !! k) in
               (<[k := i]> acc.1,
                if run then acc.2 ++ [(k, isPresent, onExitComplete)] else acc.2)
           | _ => acc
           end)
    (∅, []) out.

Definition runEffects (insts : gmap string Instance)
    (effects : list (string * bool * option Callback)) (s : Coordinator)
    : Coordinator * list Event :=
  foldl (λ acc eff,
           let '(k, isPresent, onExitComplete) := eff in
           match insts !! k with
           | None => acc
           | Some i =>
               let '(s', evs) :=
                 fire (PresenceChild_effect isPresent onExitComplete i) acc.1 in
               (s', acc.2 ++ evs)
           end)
    (s, []) effects.

Definition host_pass (props : AnimatePresenceProps) (sys : System) : System :=
  let '(s1, out) := pass props (coordinator sys) in
  let '(insts, effects) := reconcile (instances sys) out in
  let '(s2, evs) := runEffects insts effects s1 in
  MkSystem s2 insts (trace sys ++ evs).

Definition host_reportDone (k childId : string) (sys : System) : System :=
  match instances sys !! k with
  | None => sys
  | Some i =>
      let '(i', cb) := context_onExitComplete childId i in
      let '(s', evs) := fire cb (coordinator sys) in
      MkSystem s' (<[k := i']> (instances sys)) (trace sys ++ evs)
  end.

Definition host_register (k childId : string) (sys : System) : System :=
  match instances sys !! k with
  | None => sys
  | Some i =>
      MkSystem (coordinator sys) (<[k := context_register childId i]> (instances sys))
        (trace sys)
  end.

Definition host_unregister (k childId : string) (sys : System) : System :=
  match instances sys !! k with
  | None => sys
  | Some i =>
      MkSystem (coordinator sys) (<[k := unregister childId i]> (instances sys))
        (trace sys)
  end.

(** ** Vocabulary of the statements *)

(** A child without a usable key: [child.key] is [null] or the empty string. *)
Definition unkeyed (c : ReactElement) : Prop :=
  element_key c = None ∨ element_key c = Some "".

Global Instance unkeyed_dec c : Decision (unkeyed c).
Proof. unfold unkeyed. apply _. Defined.

(** The table is keyed by [getChildKey] of what it holds. *)
Definition table_ok (m : gmap string ReactElement) : Prop :=
  ∀ k c, m !! k = Some c → getChildKey c = k.

(** The keys the diff of a pass compares (lines 138-139) and the set it
    builds from them. *)
Definition presentKeysOf (s : Coordinator) : list string :=
  getChildKey <$> committed s.

Definition targetKeysOf (props : AnimatePresenceProps) : list string :=
  getChildKey <$> onlyElements (props_children props).

Definition exitingOf (props : AnimatePresenceProps) (s : Coordinator) : list string :=
  markExiting (presentKeysOf s) (targetKeysOf props).

(** A [<PresenceChild isPresent>] node. *)
Definition node_present (e : ReactElement) : Prop :=
  match e with
  | PresenceChild _ true _ _ _ _ _ => True
  | _ => False
  end.

Global Instance node_present_dec e : Decision (node_present e).
Proof. destruct e as [|? []]; apply _. Defined.

(** The callback a node carries in its [onExitComplete] prop. *)
Definition node_callback (e : ReactElement) : option Callback :=
  match e with
  | PresenceChild _ _ onExitComplete _ _ _ _ => onExitComplete
  | Element _ _ => None
  end.

(** The array the loop of lines 153-196 leaves, and the one line 200 maps
    it to, in a pass that is not the initial one. *)
Definition splicedOf (props : AnimatePresenceProps) (s : Coordinator)
    : list ReactElement :=
  foldl (spliceExitingKey (length (frames s)) props (allChildren s)
           (presentKeysOf s) (targetKeysOf props))
    (onlyElements (props_children props)) (exitingOf props s).

Definition renderedOf (props : AnimatePresenceProps) (s : Coordinator)
    : list ReactElement :=
  wrapUnlessExiting (props_mode props) (exitingOf props s) <$> splicedOf props s.

(** The node line 186 builds for an exiting key. *)
Definition exitingNode (props : AnimatePresenceProps) (s : Coordinator)
    (key : string) (child : ReactElement) : ReactElement :=
  wrapExiting (OnExit (length (frames s)) key) (props_custom props)
    (props_mode props) child.

(** The global exit callback captured by the closures of pass [p]. *)
Definition onExitCompleteProp_at (p : nat) (fs : list Frame) : option nat :=
  fs !! p ≫= onExitCompleteProp.

(** The target sequence of pass [p], as its closures see it now. *)
Definition target_at (p : nat) (fs : list Frame) : list ReactElement :=
  array_at (filteredChildrenOf p) fs.

(** The calls of completion callbacks among some events. *)
Definition fired (evs : list Event) : list Callback :=
  omap (λ e, match e with Fired cb => Some cb | _ => None end) evs.

(** The pass whose array a reference names. *)
Definition ref_pass (r : ArrayRef) : nat :=
  match r with filteredChildrenOf p | renderedChildrenOf p => p end.

(** Several completion callbacks run one after the other. *)
Definition onExits (cbs : list Callback) (s : Coordinator) : Coordinator * list Event :=
  foldl (λ acc cb, let '(s', evs) := onExit cb acc.1 in (s', acc.2 ++ evs))
    (s, []) cbs.

(** ** Runs of the host *)

(** What can happen to the mounted tree: the parent renders again with new
    props, or a nested participant registers, unregisters or reports done
    through the context of the [PresenceChild] above it. *)
Inductive Op :=
| Pass (props : AnimatePresenceProps)
| Register (k childId : string)
| Unregister (k childId : string)
| ReportDone (k childId : string).

Definition exec (sys : System) (op : Op) : System :=
  match op with
  | Pass props => host_pass props sys
  | Register k childId => host_register k childId sys
  | Unregister k childId => host_unregister k childId sys
  | ReportDone k childId => host_reportDone k childId sys
  end.

Definition run (ops : list Op) (sys : System) : System := foldl exec sys ops.

Definition reachable (sys : System) : Prop := ∃ ops, sys = run ops booted.

(** The events of [sys'] that [sys] had not seen yet. *)
Definition since (sys sys' : System) : list Event :=
  drop (length (trace sys)) (trace sys').


(** An operation of a participant. *)
Definition participant_op (op : Op) : Prop :=
  match op with
  | Pass _ => False
  | _ => True
  end.

(** The callback the effect of line 288 calls for a scheduled effect. *)
Definition effect_callback (insts : gmap string Instance)
    (eff : string * bool * option Callback) : option Callback :=
  let '(k, isPresent, onExitComplete) := eff in
  insts !! k ≫= PresenceChild_effect isPresent onExitComplete.

(** What the host keeps true of a tree it has driven from the start: the
    table is keyed consistently, and a [PresenceChild] whose memoised
    context carries a completion callback is exiting, under the key the
    callback was created for, by a pass that took place. *)
Definition sys_ok (sys : System) : Prop :=
  table_ok (allChildren (coordinator sys))
  ∧ ∀ k i, instances sys !! k = Some i →
      isInitialRender (coordinator sys) = false
      ∧ ∀ cb, ctx_onExitComplete i = Some cb →
          ctx_isPresent i = false ∧ cb_key cb = k
          ∧ cb_pass cb < length (frames (coordinator sys)).


(** No [PresenceChild] has a completion callback in its context. *)
Definition all_quiet (sys : System) : Prop :=
  ∀ k i, instances sys !! k = Some i → ctx_onExitComplete i = None.

(** Runs of the coordinator in which every completion callback that runs is
    carried by a node of the sequence the latest pass committed. *)
Inductive committed_run : Coordinator → Prop :=
| committed_run_mounted : committed_run mounted
| committed_run_pass props s :
    committed_run s → committed_run (pass props s).1
| committed_run_exit cb s :
    committed_run s →
    presentChildren s = renderedChildrenOf (latest s) →
    Some cb ∈ node_callback <$> committed s →
    committed_run (onExit cb s).1.

(** What such runs keep true. *)
Definition coord_ok (s : Coordinator) : Prop :=
  table_ok (allChildren s)
  ∧ (∀ e, e ∈ committed s → is_Some (allChildren s !! getChildKey e))
  ∧ (∀ k, k ∈ exitingSet s → is_Some (allChildren s !! k))
  ∧ (∀ e, e ∈ target_at (latest s) (frames s) →
          is_Some (allChildren s !! getChildKey e))
  ∧ (frames s = [] ∨ latest s < length (frames s))
  ∧ (presentChildren s = renderedChildrenOf (latest s) →
     ∀ e cb, e ∈ committed s → node_callback e = Some cb →
       cb_pass cb = latest s
       ∧ element_key e = Some (cb_key cb)
       ∧ (cb_key cb ∉ getChildKey <$> target_at (latest s) (frames s))
       ∧ length (filter (λ e', getChildKey e' = cb_key cb) (committed s)) ≤ 1).

(** [isValidElement] of line 36, on the children handed in. *)
Definition isValidElement (n : ReactNode) : Prop :=
  match n with NodeElement _ => True | _ => False end.

Global Instance isValidElement_dec n : Decision (isValidElement n).
Proof. destruct n; apply _. Defined.

(** Reports of participants delivered one after the other to the context
    of one [PresenceChild]: the instance after them and, for each report,
    the callback it called, if any. *)
Definition reports (ids : list string) (i : Instance)
    : Instance * list (option Callback) :=
  foldl (λ acc childId,
           let '(i', cb) := context_onExitComplete childId acc.1 in
           (i', acc.2 ++ [cb]))
    (i, []) ids.

(** Events that come in bursts: the call of a completion callback, which
    may be followed by the request of a re-evaluation, which may be
    followed by the call of the global exit callback. *)
Fixpoint bursts (evs : list Event) : bool :=
  match evs with
  | [] => true
  | Fired _ :: evs1 =>
      match evs1 with
      | ForceRender :: evs2 =>
          match evs2 with
          | ExitComplete _ :: evs3 => bursts evs3
          | _ => bursts evs2
          end
      | _ => bursts evs1
      end
  | _ => false
  end.

(** The contract on keys: a pass is handed children with distinct keys. *)
Definition key_contract (op : Op) : Prop :=
  match op with
  | Pass props => NoDup (targetKeysOf props)
  | _ => True
  end.

(** ** Concrete children and states used as examples *)

Definition el (k : string) : ReactElement := Element (Some k) 0.

Definition propsOf (cs : list ReactElement) : AnimatePresenceProps :=
  MkProps (NodeElement <$> cs) None true (Some 7) sync.

(** The coordinator after the initial pass over [a; b; c]. *)
Definition committed_abc : Coordinator :=
  (pass (propsOf [el "a"; el "b"; el "c"]) mounted).1.

(** The coordinator of scenario A once the target is [a; c]: [b] is exiting. *)
Definition exiting_b : Coordinator :=
  (pass (propsOf [el "a"; el "c"]) committed_abc).1.

(** Scenario A with a participant ["r"] registered under [b] before the
    target becomes [a; c], and after it has reported done once and twice. *)
Definition sys_exiting_b : System :=
  host_pass (propsOf [el "a"; el "c"])
    (host_register "b" "r" (host_pass (propsOf [el "a"; el "b"; el "c"]) booted)).

Definition sys_done_once : System := host_reportDone "b" "r" sys_exiting_b.
Definition sys_done_twice : System := host_reportDone "b" "r" sys_done_once.

(** The host of scenario A without any participant, before the target
    becomes [a; c]. *)
Definition sys_abc : System := host_pass (propsOf [el "a"; el "b"; el "c"]) booted.


(** A re-evaluation while [b] is exiting: targets [a; b], then [a], then
    [a; c], and only then the participant of [b] reports done. *)
Definition sys_late_report : System :=
  host_reportDone "b" "r"
    (host_pass (propsOf [el "a"; el "c"])
       (host_pass (propsOf [el "a"])
          (host_register "b" "r" (host_pass (propsOf [el "a"; el "b"]) booted)))).

(** Two keys exiting, a re-evaluation with the same empty target, and then
    the participant of [b] reports done while the one of [x] keeps running. *)
Definition sys_b_done_late : System :=
  run [Pass (propsOf [el "b"; el "x"]); Register "b" "r"; Register "x" "q";
       Pass (propsOf []); Pass (propsOf []); ReportDone "b" "r"] booted.

(** A run that loses the descriptor of an unkeyed child. The targets are
    [z; u; x; y] ([u] without a key), then [z; u; y] ([x] exiting, with a
    participant), then [z] ([u] exiting with a participant, [y] exiting
    without one, [x] still exiting). The participant of [x] reports done:
    the callback of the second pass empties that pass's set and commits its
    target [z; u; y]. The participant of [u] reports done before the
    re-evaluation: [findIndex] looks for the key [""] among the raw
    children, finds none, and [splice(-1, 1)] removes [y]; the table has
    lost its entry [""]. *)
Definition sys_unkeyed_lost : System :=
  run [Pass (propsOf [el "z"; Element None 1; el "x"; el "y"]);
       Register "x" "q"; Register "" "r";
       Pass (propsOf [el "z"; Element None 1; el "y"]);
       Pass (propsOf [el "z"]);
       ReportDone "x" "q";
       ReportDone "" "r"] booted.

(** A run with distinct keys that loses the descriptor of a committed key.
    The targets are [c; a; b], then [c; a] ([b] exiting, with a
    participant), then [a] ([c] exiting without a participant, so that it
    completes within the pass and leaves the table). The participant of [b]
    then reports done: the callback the [PresenceChild] of [b] memoised is
    the one of the second pass, which empties that pass's set and commits
    its target [c; a]. *)
Definition sys_c_lost : System :=
  run [Pass (propsOf [el "c"; el "a"; el "b"]);
       Register "b" "r";
       Pass (propsOf [el "c"; el "a"]);
       Pass (propsOf [el "a"]);
       ReportDone "b" "r"] booted.


(** * Properties *)

(** ** Arrays and sets *)

Section js_array_facts.
Context {A : Type}.
Implicit Types l : list A.

Lemma findIndex_found (P : A → Prop) `{∀ x, Decision (P x)} l i :
  findIndex P l = Z.of_nat i ↔
  ∃ x, l !! i = Some x ∧ P x ∧ ∀ j y, l !! j = Some y → j < i → ¬ P y.
Proof.
  unfold findIndex. destruct (list_find P l) as [[j y]|] eqn:E.
  - split.
    + intros Hj. apply Nat2Z.inj in Hj as ->.
      apply list_find_Some in E. eauto.
    + intros (x & Hx & HP & Hleast). f_equal.
      apply list_find_Some in E as (Hy & HPy & Hl).
      destruct (Nat.lt_trichotomy i j) as [Hlt|[->|Hlt]]; [|done|].
      * exfalso. by apply (Hl i x).
      * exfalso. by apply (Hleast j y).
  - split; [lia|]. intros (x & Hx & HP & _).
    eapply list_find_None, Forall_lookup in E; eauto. done.
Qed.

Lemma findIndex_missing (P : A → Prop) `{∀ x, Decision (P x)} l :
  findIndex P l = (-1)%Z ↔ Forall (λ x, ¬ P x) l.
Proof.
  unfold findIndex. destruct (list_find P l) as [[j y]|] eqn:E.
  - split; [lia|]. intros HF. apply list_find_Some in E as (Hy & HP & _).
    eapply Forall_lookup in HF; eauto. done.
  - split; [|done]. intros _. by apply list_find_None in E.
Qed.

Lemma findIndex_range (P : A → Prop) `{∀ x, Decision (P x)} l :
  findIndex P l = (-1)%Z ∨ ∃ i, findIndex P l = Z.of_nat i ∧ i < length l.
Proof.
  unfold findIndex. destruct (list_find P l) as [[j y]|] eqn:E; [right|by left].
  exists j. split; [done|]. apply list_find_Some in E as (Hy & _).
  by eapply lookup_lt_Some.
Qed.

Lemma indexOf_missing `{EqDecision A} (x : A) l :
  indexOf x l = (-1)%Z ↔ x ∉ l.
Proof.
  unfold indexOf. rewrite findIndex_missing, Forall_forall. split.
  - intros Hl Hx. by apply (Hl x).
  - intros Hx y Hy ->. done.
Qed.

Lemma indexOf_found `{EqDecision A} (x : A) l i :
  indexOf x l = Z.of_nat i ↔ l !! i = Some x ∧ x ∉ take i l.
Proof.
  unfold indexOf. rewrite findIndex_found. split.
  - intros (y & Hy & -> & Hleast). split; [done|].
    intros (j & Hj)%list_elem_of_lookup_1.
    apply lookup_take_Some in Hj as [Hj Hlt]. by eapply Hleast.
  - intros [Hx Hnot]. exists x. split_and!; [done..|].
    intros j y Hy Hlt ->. apply Hnot. apply list_elem_of_lookup. exists j.
    by rewrite lookup_take_lt.
Qed.

(** [splice(i, 0, x)] inside the array inserts before position [i]. *)
Lemma splice_insert (i : nat) (x : A) l :
  splice (Z.of_nat i) 0 [x] l = take i l ++ x :: drop i l.
Proof.
  unfold splice. destruct (Z.ltb_spec (Z.of_nat i) 0); [lia|].
  destruct (decide (i ≤ length l)).
  - rewrite Z.min_l, Nat2Z.id, Nat.add_0_r by lia. done.
  - rewrite Z.min_r, Nat2Z.id, Nat.add_0_r by lia.
    rewrite !take_ge, !drop_ge by lia. done.
Qed.

(** [splice(i, 1)] at a position of the array removes that element. *)
Lemma splice_remove (i : nat) l :
  splice (Z.of_nat i) 1 [] l = delete i l.
Proof.
  unfold splice. destruct (Z.ltb_spec (Z.of_nat i) 0); [lia|].
  rewrite delete_take_drop. simpl.
  destruct (decide (i ≤ length l)).
  - rewrite Z.min_l, Nat2Z.id by lia. by rewrite Nat.add_1_r.
  - rewrite Z.min_r, Nat2Z.id by lia.
    rewrite !take_ge, !drop_ge by lia. done.
Qed.

(** [splice(-1, 1)] removes the last element. *)
Lemma splice_remove_last l :
  splice (-1) 1 [] l = take (pred (length l)) l.
Proof.
  unfold splice. simpl. destruct l as [|x l]; [done|].
  replace (Z.to_nat _) with (length l).
  2:{ rewrite length_cons. lia. }
  replace (pred (length (x :: l))) with (length l) by done.
  rewrite drop_ge; [by rewrite app_nil_r|]. rewrite length_cons. lia.
Qed.

Lemma splice_remove_sublist (start : Z) l : splice start 1 [] l `sublist_of` l.
Proof.
  unfold splice. simpl. generalize (Z.to_nat
    (if (start <? 0)%Z then Z.max (Z.of_nat (length l) + start) 0
     else Z.min start (Z.of_nat (length l)))).
  intros from.
  assert (drop (from + 1) l `sublist_of` drop from l) as Hs.
  { rewrite <- (drop_drop l 1 from).
    destruct (drop from l); [done|]. simpl. rewrite drop_0. by apply sublist_cons. }
  pose proof (sublist_app _ _ _ _ (reflexivity (take from l)) Hs) as Hx.
  by rewrite take_drop in Hx.
Qed.
End js_array_facts.

Lemma Set_add_elem k k' s : k' ∈ Set_add k s ↔ k' = k ∨ k' ∈ s.
Proof.
  unfold Set_add. case_decide.
  - split; [by right|]. by intros [->|].
  - rewrite elem_of_app, list_elem_of_singleton. tauto.
Qed.

Lemma Set_add_NoDup k s : NoDup s → NoDup (Set_add k s).
Proof.
  unfold Set_add. intros Hs. case_decide; [done|].
  apply NoDup_app. split_and!; [done| |apply NoDup_singleton].
  intros x Hx ->%list_elem_of_singleton. done.
Qed.

Lemma Set_delete_elem k k' s : k' ∈ Set_delete k s ↔ k' ≠ k ∧ k' ∈ s.
Proof. unfold Set_delete. by rewrite list_elem_of_filter. Qed.


(** ** Keys and the lookup table *)

Lemma getChildKey_default c : getChildKey c = default "" (element_key c).
Proof. unfold getChildKey. destruct (element_key c); [|done]. by case_decide. Qed.

Lemma getChildKey_of_key c k : element_key c = Some k → getChildKey c = k.
Proof. intros Hk. by rewrite getChildKey_default, Hk. Qed.

Lemma getChildKey_empty c : getChildKey c = "" ↔ unkeyed c.
Proof.
  rewrite getChildKey_default. unfold unkeyed.
  destruct (element_key c); simpl; naive_solver.
Qed.

Lemma updateChildLookup_snoc cs c m :
  updateChildLookup (cs ++ [c]) m = <[getChildKey c := c]> (updateChildLookup cs m).
Proof. unfold updateChildLookup. by rewrite foldl_snoc. Qed.

(** After [updateChildLookup], a key holds the last child of the sequence
    that has this key, and what it held before if there is none. *)
Lemma updateChildLookup_lookup cs m k :
  updateChildLookup cs m !! k =
  match last (filter (λ c, getChildKey c = k) cs) with
  | Some c => Some c
  | None => m !! k
  end.
Proof.
  induction cs as [|c cs IH] using rev_ind; [done|].
  rewrite updateChildLookup_snoc, filter_app, filter_cons, filter_nil.
  case_decide as Hk.
  - subst k. by rewrite last_snoc, lookup_insert_eq.
  - by rewrite app_nil_r, lookup_insert_ne.
Qed.

Lemma updateChildLookup_dom cs m k :
  is_Some (updateChildLookup cs m !! k) ↔ k ∈ getChildKey <$> cs ∨ is_Some (m !! k).
Proof.
  induction cs as [|c cs IH] using rev_ind.
  - simpl. rewrite elem_of_nil. tauto.
  - rewrite updateChildLookup_snoc, fmap_app, elem_of_app. simpl.
    rewrite list_elem_of_singleton.
    destruct (decide (getChildKey c = k)) as [->|].
    + rewrite lookup_insert_eq. split; [|by eauto]. intros _. left. by right.
    + rewrite lookup_insert_ne, IH by done. naive_solver.
Qed.

Lemma table_ok_empty : table_ok ∅.
Proof. intros k c. by rewrite lookup_empty. Qed.

Lemma table_ok_update cs m : table_ok m → table_ok (updateChildLookup cs m).
Proof.
  intros Hm. induction cs as [|c cs IH] using rev_ind; [done|].
  rewrite updateChildLookup_snoc. intros k c'.
  destruct (decide (getChildKey c = k)) as [<-|].
  - rewrite lookup_insert_eq. by intros [= <-].
  - rewrite lookup_insert_ne by done. apply IH.
Qed.

Lemma table_ok_delete k m : table_ok m → table_ok (delete k m).
Proof. intros Hm k' c Hk'. apply lookup_delete_Some in Hk' as [_ ?]. by apply Hm. Qed.

(** ** The diff *)

Lemma markExiting_snoc presentKeys key targetKeys :
  markExiting (presentKeys ++ [key]) targetKeys =
  if decide (key ∈ targetKeys) then markExiting presentKeys targetKeys
  else Set_add key (markExiting presentKeys targetKeys).
Proof.
  unfold markExiting. rewrite foldl_snoc.
  repeat case_decide; try done.
  - by apply indexOf_missing in H.
  - by apply indexOf_missing in H0.
Qed.

Lemma markExiting_elem presentKeys targetKeys k :
  k ∈ markExiting presentKeys targetKeys ↔ k ∈ presentKeys ∧ k ∉ targetKeys.
Proof.
  induction presentKeys as [|key ks IH] using rev_ind.
  - unfold markExiting. simpl. rewrite !elem_of_nil. tauto.
  - rewrite markExiting_snoc, elem_of_app, list_elem_of_singleton.
    case_decide.
    + rewrite IH. naive_solver.
    + rewrite Set_add_elem, IH. naive_solver.
Qed.

Lemma markExiting_NoDup presentKeys targetKeys :
  NoDup (markExiting presentKeys targetKeys).
Proof.
  induction presentKeys as [|key ks IH] using rev_ind.
  - apply NoDup_nil_2.
  - rewrite markExiting_snoc. case_decide; [done|]. by apply Set_add_NoDup.
Qed.

(** With distinct committed keys the exiting set lists, in committed order,
    the committed keys that the target lacks. *)
Lemma markExiting_filter presentKeys targetKeys :
  NoDup presentKeys →
  markExiting presentKeys targetKeys = filter (λ k, k ∉ targetKeys) presentKeys.
Proof.
  induction presentKeys as [|key ks IH] using rev_ind; [done|].
  intros [Hks [Hdisj _]]%NoDup_app.
  rewrite markExiting_snoc, filter_app, filter_cons, filter_nil, IH by done.
  case_decide as Hk.
  - rewrite decide_False by tauto. by rewrite app_nil_r.
  - rewrite decide_True by done. unfold Set_add.
    rewrite decide_False; [done|].
    intros [_ Hin]%list_elem_of_filter. apply (Hdisj key Hin). by left.
Qed.

Lemma markExiting_empty presentKeys targetKeys :
  markExiting presentKeys targetKeys = [] ↔ presentKeys ⊆ targetKeys.
Proof.
  split.
  - intros He k Hk. destruct (decide (k ∈ targetKeys)) as [|Hn]; [done|].
    assert (k ∈ markExiting presentKeys targetKeys) as Hin
      by by apply markExiting_elem.
    rewrite He in Hin. by apply elem_of_nil in Hin.
  - intros Hsub. destruct (markExiting presentKeys targetKeys) as [|k l] eqn:E; [done|].
    assert (k ∈ markExiting presentKeys targetKeys) as Hin by (rewrite E; left).
    apply markExiting_elem in Hin as [Hin Hn]. by apply Hsub in Hin.
Qed.

(** ** What a pass computes *)

Lemma frames_lookup_new (fs : list Frame) f : (fs ++ [f]) !! length fs = Some f.
Proof. by rewrite lookup_app_r, Nat.sub_diag. Qed.

Lemma pass_first props s :
  isInitialRender s = true →
  pass props s =
  (MkCoordinator
     (frames s ++ [MkFrame (onlyElements (props_children props)) []
                     (filteredChildrenOf (length (frames s))) []
                     (props_onExitComplete props)])
     (filteredChildrenOf (length (frames s)))
     (updateChildLookup (onlyElements (props_children props)) (allChildren s))
     false true,
   wrapInitial (props_initial props) (props_mode props)
     <$> onlyElements (props_children props)).
Proof.
  intros Hi. unfold pass, AnimatePresence. rewrite Hi.
  unfold layoutEffect. simpl. by rewrite frames_lookup_new.
Qed.

Lemma pass_later props s :
  isInitialRender s = false →
  pass props s =
  (MkCoordinator
     (frames s ++ [MkFrame (onlyElements (props_children props)) (renderedOf props s)
                     (renderedChildrenOf (length (frames s))) (exitingOf props s)
                     (props_onExitComplete props)])
     (renderedChildrenOf (length (frames s)))
     (updateChildLookup (onlyElements (props_children props)) (allChildren s))
     false true,
   renderedOf props s).
Proof.
  intros Hi. unfold pass, AnimatePresence. rewrite Hi.
  unfold layoutEffect. simpl. rewrite frames_lookup_new. simpl.
  f_equal. case_decide; [|done].
  unfold cloneElement. by rewrite list_fmap_id.
Qed.

Lemma pass_frames props s :
  ∃ f, frames (pass props s).1 = frames s ++ [f]
       ∧ filteredChildren f = onlyElements (props_children props)
       ∧ onExitCompleteProp f = props_onExitComplete props
       ∧ exiting f = (if isInitialRender s then [] else exitingOf props s).
Proof.
  destruct (isInitialRender s) eqn:Hi.
  - rewrite pass_first by done. eauto.
  - rewrite pass_later by done. eauto.
Qed.

Lemma pass_latest props s : latest (pass props s).1 = length (frames s).
Proof.
  unfold latest. destruct (pass_frames props s) as (f & -> & _).
  rewrite length_app. simpl. lia.
Qed.

Lemma pass_exitingSet props s :
  exitingSet (pass props s).1 = if isInitialRender s then [] else exitingOf props s.
Proof.
  unfold exitingSet, exiting_at. rewrite pass_latest.
  destruct (pass_frames props s) as (f & -> & _ & _ & <-).
  by rewrite frames_lookup_new.
Qed.

Lemma pass_allChildren props s :
  allChildren (pass props s).1 =
  updateChildLookup (onlyElements (props_children props)) (allChildren s).
Proof.
  destruct (isInitialRender s) eqn:Hi;
    [rewrite pass_first by done|rewrite pass_later by done]; done.
Qed.

Lemma pass_committed_first props s :
  isInitialRender s = true →
  committed (pass props s).1 = onlyElements (props_children props).
Proof.
  intros Hi. rewrite pass_first by done. unfold committed. simpl.
  by rewrite frames_lookup_new.
Qed.

Lemma pass_committed_later props s :
  isInitialRender s = false →
  committed (pass props s).1 = renderedOf props s.
Proof.
  intros Hi. rewrite pass_later by done. unfold committed. simpl.
  by rewrite frames_lookup_new.
Qed.

(** *** The loop that splices the exiting nodes in *)

Section splicing.
Context {A : Type}.
Implicit Types l : list A.

Lemma splice_insert_shape (start : Z) (x : A) l :
  ∃ n, splice start 0 [x] l = take n l ++ x :: drop n l.
Proof. unfold splice. eexists. by rewrite Nat.add_0_r. Qed.

Lemma splice_insert_elem (start : Z) (x y : A) l :
  y ∈ splice start 0 [x] l ↔ y = x ∨ y ∈ l.
Proof.
  destruct (splice_insert_shape start x l) as [n ->].
  rewrite <- (take_drop n l) at 3.
  rewrite !elem_of_app, elem_of_cons. tauto.
Qed.

Lemma splice_insert_filter (P : A → Prop) `{∀ x, Decision (P x)}
    (start : Z) (x : A) l :
  ¬ P x → filter P (splice start 0 [x] l) = filter P l.
Proof.
  intros Hx. destruct (splice_insert_shape start x l) as [n ->].
  rewrite filter_app, filter_cons, decide_False, <- filter_app, take_drop; done.
Qed.
End splicing.

Lemma spliced_elem p props all presentKeys targetKeys ex ctr e :
  (∀ k, k ∈ ex → k ∉ targetKeys) →
  e ∈ foldl (spliceExitingKey p props all presentKeys targetKeys) ctr ex ↔
  e ∈ ctr ∨ ∃ key child, key ∈ ex ∧ all !! key = Some child
                         ∧ e = wrapExiting (OnExit p key) (props_custom props)
                                 (props_mode props) child.
Proof.
  revert ctr. induction ex as [|k ex IH]; intros ctr Hex; simpl.
  - split; [by left|]. intros [|(?&?&[]%elem_of_nil&_)]; done.
  - rewrite IH by (intros; apply Hex; by right).
    unfold spliceExitingKey.
    rewrite decide_False.
    2:{ intros Hk. apply Hk, indexOf_missing, Hex. by left. }
    destruct (all !! k) as [child|] eqn:Hchild.
    + rewrite splice_insert_elem. split.
      * intros [[->|?]|(key & c & ? & ? & ?)]; [right|by left|right].
        -- exists k, child. split_and!; [by left|done..].
        -- exists key, c. split_and!; [by right|done..].
      * intros [?|(key & c & [->|?]%elem_of_cons & Hc & ->)].
        -- left. by right.
        -- left. left. congruence.
        -- right. eauto.
    + split.
      * intros [?|(key & c & ? & ? & ?)]; [by left|right].
        exists key, c. split_and!; [by right|done..].
      * intros [?|(key & c & [->|?]%elem_of_cons & Hc & ->)]; [by left| |].
        -- congruence.
        -- right. eauto.
Qed.

Lemma exitingOf_elem props s k :
  k ∈ exitingOf props s ↔ k ∈ presentKeysOf s ∧ k ∉ targetKeysOf props.
Proof. apply markExiting_elem. Qed.

Lemma splicedOf_elem props s e :
  e ∈ splicedOf props s ↔
  e ∈ onlyElements (props_children props) ∨
  ∃ key child, key ∈ exitingOf props s ∧ allChildren s !! key = Some child
               ∧ e = exitingNode props s key child.
Proof.
  unfold splicedOf. apply spliced_elem.
  intros k Hk. by apply exitingOf_elem in Hk as [_ ?].
Qed.

(** A target child never carries a key of the exiting set, so line 200 wraps
    every target child and keeps the exiting nodes whose key is exiting. *)
Lemma wrapUnlessExiting_target props s c :
  c ∈ onlyElements (props_children props) →
  wrapUnlessExiting (props_mode props) (exitingOf props s) c
  = wrapPresent (props_mode props) c.
Proof.
  intros Hc. unfold wrapUnlessExiting.
  destruct (element_key c) as [k|] eqn:Hk; [|done].
  unfold Set_has. rewrite bool_decide_eq_false_2; [done|].
  intros [_ Hn]%exitingOf_elem. apply Hn.
  apply list_elem_of_fmap. exists c. split; [|done].
  symmetry. by apply getChildKey_of_key.
Qed.

Lemma wrapUnlessExiting_exiting props s key child :
  getChildKey child ∈ exitingOf props s →
  wrapUnlessExiting (props_mode props) (exitingOf props s)
    (exitingNode props s key child)
  = exitingNode props s key child.
Proof.
  intros Hk. unfold wrapUnlessExiting, exitingNode, wrapExiting. simpl.
  unfold Set_has. by rewrite bool_decide_eq_true_2.
Qed.

(** *** Where the exiting nodes land *)


Lemma length_filter_split {A} (P : A → Prop) `{∀ x, Decision (P x)} (l : list A) :
  length l = length (filter P l) + length (filter (λ x, ¬ P x) l).
Proof.
  induction l as [|x l IH]; [done|].
  rewrite !filter_cons. destruct (decide (P x)).
  - rewrite decide_False by tauto. simpl. lia.
  - rewrite decide_True by done. simpl. lia.
Qed.

Lemma NoDup_within_length (T P : list string) :
  NoDup P → length (filter (λ k, k ∈ T) P) ≤ length T.
Proof.
  intros HP. apply submseteq_length, NoDup_submseteq.
  - by apply NoDup_filter.
  - by intros k [? _]%list_elem_of_filter.
Qed.

Section landing.
Context (props : AnimatePresenceProps) (s : Coordinator).
Let p := length (frames s).
Let P := presentKeysOf s.
Let T := targetKeysOf props.
Let step := spliceExitingKey p props (allChildren s) P T.

Hypothesis distinct : NoDup P.
Hypothesis described :
  ∀ k, k ∈ exitingOf props s →
       ∃ c, allChildren s !! k = Some c ∧ getChildKey c = k.

(** The state of the loop once it has gone through the exiting keys of a
    prefix of the committed keys. *)
Lemma splice_prefix P1 P2 :
  P = P1 ++ P2 →
  let ctr := foldl step (onlyElements (props_children props))
               (filter (λ k, k ∉ T) P1) in
  length ctr = length T + length (filter (λ k, k ∉ T) P1)
  ∧ ∀ i k c, P1 !! i = Some k → k ∉ T → allChildren s !! k = Some c →
             ctr !! i = Some (exitingNode props s k c).
Proof.
  revert P2. induction P1 as [|k1 P1 IH] using rev_ind; intros P2 HP.
  - simpl. split; [|done]. unfold T, targetKeysOf.
    rewrite length_fmap. lia.
  - rewrite <- app_assoc in HP. destruct (IH _ HP) as [Hlen Hat]. clear IH.
    rewrite filter_app, filter_cons, filter_nil. simpl.
    destruct (decide (k1 ∉ T)) as [Hk1|Hk1].
    + rewrite foldl_snoc.
      set (ctr := foldl step _ _) in *.
      assert (k1 ∈ exitingOf props s) as Hex.
      { apply exitingOf_elem. split; [|done]. fold P. rewrite HP.
        apply elem_of_app. right. by left. }
      destruct (described k1 Hex) as (c1 & Hc1 & _).
      assert (indexOf k1 P = Z.of_nat (length P1)) as Hidx.
      { apply indexOf_found. rewrite HP. split.
        - by rewrite lookup_app_r, Nat.sub_diag.
        - rewrite take_app_length. rewrite HP in distinct.
          apply NoDup_app in distinct as (_ & Hd & _).
          intros Hin. apply (Hd k1 Hin). by left. }
      assert (length P1 ≤ length ctr) as Hle.
      { rewrite Hlen, (length_filter_split (λ k, k ∈ T) P1).
        pose proof (NoDup_within_length T P1) as Hn.
        rewrite HP in distinct. apply NoDup_app in distinct as (HP1 & _).
        specialize (Hn HP1). lia. }
      assert (step ctr k1 = take (length P1) ctr
                ++ exitingNode props s k1 c1 :: drop (length P1) ctr) as ->.
      { unfold step, spliceExitingKey.
        rewrite decide_False by (intros Hn; by apply Hn, indexOf_missing).
        by rewrite Hc1, Hidx, splice_insert. }
      split.
      * rewrite !length_app, !length_cons, length_take, length_drop. simpl. lia.
      * intros i k c Hi Hk Hc.
        apply lookup_app_Some in Hi as [Hi|[Hge Hi]].
        -- rewrite lookup_app_l by (rewrite length_take; apply lookup_lt_Some in Hi; lia).
           rewrite lookup_take_lt by (by eapply lookup_lt_Some).
           by apply Hat.
        -- apply list_lookup_singleton_Some in Hi as [Hi ->].
           assert (i = length P1) as -> by lia.
           rewrite lookup_app_r by (rewrite length_take; lia).
           rewrite length_take, Nat.min_l, Nat.sub_diag by lia. simpl.
           congruence.
    + rewrite app_nil_r. split; [simpl; lia|].
      intros i k c Hi Hk Hc.
      apply lookup_app_Some in Hi as [Hi|[Hge Hi]]; [by apply Hat|].
      apply list_lookup_singleton_Some in Hi as [_ ->]. done.
Qed.

Lemma splicedOf_lookup i k c :
  P !! i = Some k → k ∉ T → allChildren s !! k = Some c →
  splicedOf props s !! i = Some (exitingNode props s k c).
Proof.
  intros Hi Hk Hc. unfold splicedOf, exitingOf. fold P T p.
  rewrite markExiting_filter by done.
  destruct (splice_prefix P [] (eq_sym (app_nil_r P))) as [_ Hat]. by apply Hat.
Qed.

Lemma splicedOf_length :
  length (splicedOf props s) = length T + length (exitingOf props s).
Proof.
  unfold splicedOf, exitingOf. fold P T p.
  rewrite markExiting_filter by done.
  by destruct (splice_prefix P [] (eq_sym (app_nil_r P))) as [Hlen _].
Qed.

Lemma renderedOf_lookup i k c :
  P !! i = Some k → k ∉ T → allChildren s !! k = Some c →
  renderedOf props s !! i = Some (exitingNode props s k c).
Proof.
  intros Hi Hk Hc. unfold renderedOf.
  rewrite list_lookup_fmap, (splicedOf_lookup i k c) by done. simpl. f_equal.
  apply wrapUnlessExiting_exiting.
  assert (k ∈ exitingOf props s) as Hex.
  { apply exitingOf_elem. split; [|done]. by eapply list_elem_of_lookup_2. }
  destruct (described k Hex) as (c' & Hc' & Hkey). congruence.
Qed.
End landing.

(** *** The present nodes keep the target order *)

Lemma renderedOf_present props s :
  (∀ k c, k ∈ exitingOf props s → allChildren s !! k = Some c → getChildKey c = k) →
  filter node_present (renderedOf props s)
  = wrapPresent (props_mode props) <$> onlyElements (props_children props).
Proof.
  intros Hdesc. unfold renderedOf, splicedOf.
  set (step := spliceExitingKey _ _ _ _ _).
  set (wrap := wrapUnlessExiting _ _).
  assert (∀ ex ctr, ex ⊆ exitingOf props s →
            filter node_present (wrap <$> foldl step ctr ex)
            = filter node_present (wrap <$> ctr)) as Hloop.
  { induction ex as [|k ex IH]; intros ctr Hsub; [done|]. simpl.
    rewrite IH by set_solver.
    assert (k ∈ exitingOf props s) as Hk by set_solver.
    unfold step, spliceExitingKey.
    destruct (decide _) as [|_]; [done|].
    destruct (allChildren s !! k) as [c|] eqn:Hc; [|done].
    destruct (splice_insert_shape (indexOf k (presentKeysOf s))
                (wrapExiting (OnExit (length (frames s)) k) (props_custom props)
                   (props_mode props) c) ctr) as [m ->].
    rewrite fmap_app, fmap_cons, filter_app, filter_cons.
    rewrite decide_False.
    - by rewrite <- filter_app, <- fmap_app, take_drop.
    - pose proof (wrapUnlessExiting_exiting props s k c) as Hw.
      unfold exitingNode in Hw. unfold wrap. rewrite Hw; [simpl; tauto|].
      by rewrite (Hdesc k c). }
  rewrite Hloop by done.
  assert (∀ l, l ⊆ onlyElements (props_children props) →
            filter node_present (wrap <$> l) = wrapPresent (props_mode props) <$> l)
    as Htarget.
  { induction l as [|c l IH]; intros Hsub; [done|].
    rewrite !fmap_cons.
    assert (wrap c = wrapPresent (props_mode props) c) as ->
      by (apply wrapUnlessExiting_target; set_solver).
    rewrite filter_cons, IH by set_solver.
    by rewrite decide_True. }
  by apply Htarget.
Qed.

(** ** C5: exiting nodes keep the index they held *)

(** C5, as the claim has it, fails: not in every pass after the first does
    an exiting node stand at the index its key held. [sys_c_lost] is reached
    with distinct keys in every pass; its committed keys are [c; a] and the
    table has lost [c]. In the pass to the empty target, [c] is skipped for
    want of a descriptor, and the node of [a], whose key held index 1, is
    returned at index 0; index 1 holds nothing. *)
Lemma exiting_node_lands_before_its_index :
  reachable sys_c_lost
  ∧ Forall key_contract
      [Pass (propsOf [el "c"; el "a"; el "b"]); Register "b" "r";
       Pass (propsOf [el "c"; el "a"]); Pass (propsOf [el "a"]);
       ReportDone "b" "r"; Pass (propsOf [])]
  ∧ isInitialRender (coordinator sys_c_lost) = false
  ∧ presentKeysOf (coordinator sys_c_lost) = ["c"; "a"]
  ∧ allChildren (coordinator sys_c_lost) !! "c" = None
  ∧ allChildren (coordinator sys_c_lost) !! "a" = Some (el "a")
  ∧ exitingSet (pass (propsOf []) (coordinator sys_c_lost)).1 = ["c"; "a"]
  ∧ (pass (propsOf []) (coordinator sys_c_lost)).2
    = [exitingNode (propsOf []) (coordinator sys_c_lost) "a" (el "a")]
  ∧ (pass (propsOf []) (coordinator sys_c_lost)).2 !! 1 = None.
Proof.
  split.
  - exists [Pass (propsOf [el "c"; el "a"; el "b"]); Register "b" "r";
            Pass (propsOf [el "c"; el "a"]); Pass (propsOf [el "a"]);
            ReportDone "b" "r"].
    reflexivity.
  - split; [repeat constructor; compute_done|].
    split_and!; compute_done.
Qed.

(** C5. In a pass that is not the first one, with distinct committed keys and
    a descriptor recorded for every exiting key, the node of an exiting key
    [k] (its last-known descriptor, [isPresent = false], carrying the
    completion callback of this pass) stands in the returned sequence, and
    in the sequence committed by the layout effect, at the index [i] that
    [k] held among the committed keys; the present nodes around it are the
    target children in target order. *)
Theorem exiting_node_keeps_committed_index
    (props : AnimatePresenceProps) (s : Coordinator) (i : nat) (k : string)
    (child : ReactElement) :
  isInitialRender s = false →
  NoDup (presentKeysOf s) →
  (∀ k', k' ∈ exitingOf props s →
         ∃ c, allChildren s !! k' = Some c ∧ getChildKey c = k') →
  presentKeysOf s !! i = Some k →
  k ∉ targetKeysOf props →
  allChildren s !! k = Some child →
  (pass props s).2 !! i = Some (exitingNode props s k child)
  ∧ committed (pass props s).1 !! i = Some (exitingNode props s k child)
  ∧ filter node_present (pass props s).2
    = wrapPresent (props_mode props) <$> onlyElements (props_children props).
Proof.
  intros Hlater Hdistinct Hdesc Hi Hk Hchild.
  rewrite pass_committed_later by done. rewrite pass_later by done. simpl.
  split_and!.
  - by apply renderedOf_lookup.
  - by apply renderedOf_lookup.
  - apply renderedOf_present. intros k' c Hk' Hc.
    destruct (Hdesc k' Hk') as (c' & Hc' & Hkey). congruence.
Qed.

(** Scenario A: committed [a; b; c] and target [a; c] render [b], exiting,
    at index 1. *)
Lemma exiting_node_keeps_committed_index_scenarioA :
  (pass (propsOf [el "a"; el "c"]) committed_abc).2 !! 1
  = Some (PresenceChild (Some "b") false (Some (OnExit 1 "b")) None None sync (el "b"))
  ∧ committed (pass (propsOf [el "a"; el "c"]) committed_abc).1 !! 1
    = Some (PresenceChild (Some "b") false (Some (OnExit 1 "b")) None None sync (el "b"))
  ∧ filter node_present (pass (propsOf [el "a"; el "c"]) committed_abc).2
    = [wrapPresent sync (el "a"); wrapPresent sync (el "c")].
Proof.
  apply (exiting_node_keeps_committed_index
           (propsOf [el "a"; el "c"]) committed_abc 1 "b" (el "b")).
  - reflexivity.
  - compute_done.
  - intros k' Hk'.
    assert (k' = "b") as ->.
    { apply exitingOf_elem in Hk' as [Hp Ht].
      vm_compute in Hp, Ht.
      repeat (apply elem_of_cons in Hp as [->|Hp]; [try done|]).
      - exfalso. apply Ht. left.
      - exfalso. apply Ht. right. left.
      - by apply elem_of_nil in Hp. }
    exists (el "b"). split; reflexivity.
  - reflexivity.
  - compute_done.
  - reflexivity.
Defined.

(** ** C10: children without a key share the key [""] *)

(** C10. A child whose key is [null] or empty gets the key [""]; after a
    pass whose target holds such children, the known-children table has the
    single entry [""] for all of them (it holds the last one), and [""] is
    not in the exiting set of the pass whatever the committed sequence held:
    in the diff every unkeyed child stands for every other. *)
Theorem unkeyed_children_share_one_key
    (props : AnimatePresenceProps) (s : Coordinator) (c : ReactElement) :
  unkeyed c →
  c ∈ onlyElements (props_children props) →
  getChildKey c = ""
  ∧ is_Some (last (filter unkeyed (onlyElements (props_children props))))
  ∧ allChildren (pass props s).1 !! ""
    = last (filter unkeyed (onlyElements (props_children props)))
  ∧ "" ∉ exitingSet (pass props s).1.
Proof.
  intros Hc Hin.
  assert (getChildKey c = "") as Hkey by by apply getChildKey_empty.
  assert (filter (λ c, getChildKey c = "") (onlyElements (props_children props))
          = filter unkeyed (onlyElements (props_children props))) as Hfilter.
  { apply list_filter_iff. intros x. apply getChildKey_empty. }
  assert (is_Some (last (filter unkeyed (onlyElements (props_children props)))))
    as Hlast.
  { destruct (last _) eqn:E; [by eauto|]. apply last_None in E.
    assert (c ∈ filter unkeyed (onlyElements (props_children props))) as Hc'
      by by apply list_elem_of_filter.
    rewrite E in Hc'. by apply elem_of_nil in Hc'. }
  split_and!; [done..| |].
  - rewrite pass_allChildren, updateChildLookup_lookup, Hfilter.
    by destruct Hlast as [x ->].
  - rewrite pass_exitingSet. destruct (isInitialRender s); [apply not_elem_of_nil|].
    intros [_ Hn]%exitingOf_elem. apply Hn.
    apply list_elem_of_fmap. eauto.
Qed.

(** Two unkeyed children in one pass: one entry, holding the second. *)
Lemma unkeyed_children_share_one_key_pair :
  getChildKey (Element None 2) = ""
  ∧ is_Some (last (filter unkeyed [Element None 1; Element None 2]))
  ∧ allChildren (pass (propsOf [Element None 1; Element None 2]) committed_abc).1 !! ""
    = Some (Element None 2)
  ∧ "" ∉ exitingSet (pass (propsOf [Element None 1; Element None 2]) committed_abc).1.
Proof.
  apply (unkeyed_children_share_one_key
           (propsOf [Element None 1; Element None 2]) committed_abc (Element None 2)).
  - by left.
  - compute_done.
Defined.

(** ** The registry of a [PresenceChild] *)


Lemma resetAll_empty : resetAll ∅ = ∅.
Proof. unfold resetAll. by rewrite fmap_empty. Qed.

Lemma PresenceChild_render_same i onExitComplete initial custom :
  PresenceChild_render (ctx_isPresent i) onExitComplete initial custom (Some i)
  = (i, false).
Proof. unfold PresenceChild_render. by rewrite decide_True. Qed.

Lemma PresenceChild_render_flip i onExitComplete initial custom :
  PresenceChild_render (negb (ctx_isPresent i)) onExitComplete initial custom (Some i)
  = (MkInstance (resetAll (presenceChildren i)) (negb (ctx_isPresent i))
       onExitComplete initial custom, true).
Proof.
  unfold PresenceChild_render. rewrite decide_False; [done|].
  by destruct (ctx_isPresent i).
Qed.

(** ** C8: when the registry is reset *)




(** ** Reports of participants *)


Lemma context_onExitComplete_fires childId i :
  (context_onExitComplete childId i).2
  = if decide (map_Forall (λ _ isComplete, isComplete = true)
                 (<[childId := true]> (presenceChildren i)))
    then ctx_onExitComplete i else None.
Proof. done. Qed.

(** ** The store of frames *)

Lemma exiting_at_set_exiting q p ex fs :
  exiting_at q (alter (set_exiting ex) p fs)
  = if decide (q = p ∧ p < length fs) then ex else exiting_at q fs.
Proof.
  unfold exiting_at. destruct (decide (q = p)) as [->|Hne].
  - destruct (fs !! p) as [f|] eqn:Hf.
    + rewrite decide_True by (split; [done|by eapply lookup_lt_Some]).
      rewrite list_lookup_alter_eq, Hf. done.
    + rewrite decide_False by (apply lookup_ge_None in Hf; lia).
      rewrite list_lookup_alter_eq, Hf. done.
  - rewrite decide_False by tauto. by rewrite list_lookup_alter_ne.
Qed.

Lemma exiting_at_array_set q r l fs :
  exiting_at q (array_set r l fs) = exiting_at q fs.
Proof.
  unfold exiting_at. destruct r as [p|p]; simpl;
    (destruct (decide (q = p)) as [->|];
     [rewrite list_lookup_alter_eq; by destruct (fs !! p)
     |by rewrite list_lookup_alter_ne]).
Qed.

Lemma array_at_set_exiting r p ex fs :
  array_at r (alter (set_exiting ex) p fs) = array_at r fs.
Proof.
  destruct r as [q|q]; simpl;
    (destruct (decide (q = p)) as [->|];
     [rewrite list_lookup_alter_eq; by destruct (fs !! p)
     |by rewrite list_lookup_alter_ne]).
Qed.

Lemma array_at_set_eq r l fs :
  ref_pass r < length fs → array_at r (array_set r l fs) = l.
Proof.
  intros Hlt. apply lookup_lt_is_Some in Hlt as [f Hf].
  destruct r as [p|p]; simpl in *; by rewrite list_lookup_alter_eq, Hf.
Qed.

Lemma array_at_set_ne r r' l fs :
  r ≠ r' → array_at r' (array_set r l fs) = array_at r' fs.
Proof.
  intros Hne. destruct r as [p|p], r' as [q|q]; simpl;
    (destruct (decide (q = p)) as [->|];
     [first [congruence | rewrite list_lookup_alter_eq; by destruct (fs !! p)]
     |by rewrite list_lookup_alter_ne]).
Qed.

Lemma array_at_nonempty r fs : array_at r fs ≠ [] → ref_pass r < length fs.
Proof.
  intros Hne. destruct (decide (ref_pass r < length fs)) as [|Hge]; [done|].
  exfalso. apply Hne.
  destruct r as [p|p]; simpl in *; by rewrite lookup_ge_None_2 by lia.
Qed.

Lemma onExitCompleteProp_at_alter p q g fs :
  (∀ f, onExitCompleteProp (g f) = onExitCompleteProp f) →
  onExitCompleteProp_at p (alter g q fs) = onExitCompleteProp_at p fs.
Proof.
  intros Hg. unfold onExitCompleteProp_at.
  destruct (decide (p = q)) as [->|].
  - rewrite list_lookup_alter_eq. destruct (fs !! q); simpl; [apply Hg|done].
  - by rewrite list_lookup_alter_ne.
Qed.

(** ** What [onExit] does *)

Section onExit_facts.
Context (cb : Callback) (s : Coordinator).
Let p := cb_pass cb.
Let key := cb_key cb.
Let ex' := Set_delete key (exiting_at p (frames s)).
Let removeIndex :=
  findIndex (λ presentChild, element_key presentChild = Some key) (committed s).

Hypothesis issued : p < length (frames s).

Lemma onExit_unfold :
  onExit cb s =
  (MkCoordinator
     (array_set (presentChildren s) (splice removeIndex 1 [] (committed s))
        (alter (set_exiting ex') p (frames s)))
     (if decide (ex' = []) then filteredChildrenOf p else presentChildren s)
     (delete key (allChildren s)) (isInitialRender s) (isMounted s),
   if decide (ex' = []) then
     if isMounted s then
       ForceRender :: match onExitCompleteProp_at p (frames s) with
                      | Some g => [ExitComplete g]
                      | None => []
                      end
     else []
   else []).
Proof.
  unfold onExit. fold p key.
  destruct (lookup_lt_is_Some_2 _ _ issued) as [f Hf]. rewrite Hf.
  unfold removeIndex, committed, ex', exiting_at, onExitCompleteProp_at.
  rewrite Hf. simpl. rewrite array_at_set_exiting.
  destruct (decide (Set_delete key (exiting f) = [])); [|done].
  by destruct (isMounted s).
Qed.

Lemma onExit_allChildren :
  allChildren (onExit cb s).1 = delete key (allChildren s).
Proof. by rewrite onExit_unfold. Qed.

Lemma onExit_exiting_at q :
  exiting_at q (frames (onExit cb s).1)
  = if decide (q = p) then ex' else exiting_at q (frames s).
Proof.
  rewrite onExit_unfold. simpl.
  rewrite exiting_at_array_set, exiting_at_set_exiting.
  destruct (decide (q = p)) as [->|].
  - by rewrite decide_True.
  - by rewrite decide_False by tauto.
Qed.

Lemma onExit_length : length (frames (onExit cb s).1) = length (frames s).
Proof.
  rewrite onExit_unfold. simpl.
  destruct (presentChildren s); simpl; by rewrite !length_alter.
Qed.

Lemma onExit_isMounted : isMounted (onExit cb s).1 = isMounted s.
Proof. by rewrite onExit_unfold. Qed.

Lemma onExit_isInitialRender :
  isInitialRender (onExit cb s).1 = isInitialRender s.
Proof. by rewrite onExit_unfold. Qed.

Lemma onExit_onExitCompleteProp_at q :
  onExitCompleteProp_at q (frames (onExit cb s).1)
  = onExitCompleteProp_at q (frames s).
Proof.
  rewrite onExit_unfold. simpl.
  destruct (presentChildren s); simpl;
    by rewrite !onExitCompleteProp_at_alter.
Qed.
End onExit_facts.

Lemma onExit_unissued cb s :
  length (frames s) ≤ cb_pass cb → onExit cb s = (s, []).
Proof. intros Hge. unfold onExit. by rewrite lookup_ge_None_2. Qed.

(** ** C2: what a completion callback does *)

(** C2, as the claim states it, fails where it says "the latest target
    sequence". The targets are [a; b], then [a] (so [b] is exiting, with a
    participant still running), then [a; c]; the [PresenceChild] of [b]
    keeps the context it memoised when [isPresent] became [false], so the
    report of the participant runs the [onExit] of the second pass: the
    committed-present sequence becomes [a], the target of that pass, and not
    [a; c]; the exiting set of the latest pass still holds [b]. *)
Lemma late_report_commits_older_target :
  fired (trace sys_late_report) = [OnExit 1 "b"]
  ∧ ForceRender ∈ trace sys_late_report
  ∧ latest (coordinator sys_late_report) = 2
  ∧ target_at 2 (frames (coordinator sys_late_report)) = [el "a"; el "c"]
  ∧ committed (coordinator sys_late_report) = [el "a"]
  ∧ committed (coordinator sys_late_report)
    ≠ target_at (latest (coordinator sys_late_report))
        (frames (coordinator sys_late_report))
  ∧ exitingSet (coordinator sys_late_report) = ["b"].
Proof. split_and!; compute_done. Qed.

(** C2, amended. When the completion callback created by pass [p] for an
    exiting key runs (the key is not in the target of [p], and its node is in
    the committed-present sequence, at index [i]): the key is removed from
    the known-children table and from the exiting set of pass [p], the sets
    of the other passes being left alone, and its node is spliced out; if
    the exiting set of [p] is then empty, the committed-present sequence is
    set to the target sequence of pass [p], and, the component being
    mounted, a re-evaluation is requested and the global exit callback of
    pass [p], if there is one, is invoked; unmounted, neither happens. *)
Theorem onExit_completes_exit
    (cb : Callback) (s : Coordinator) (i : nat) :
  cb_pass cb < length (frames s) →
  cb_key cb ∉ getChildKey <$> target_at (cb_pass cb) (frames s) →
  findIndex (λ e, element_key e = Some (cb_key cb)) (committed s) = Z.of_nat i →
  let s' := (onExit cb s).1 in
  let ex' := Set_delete (cb_key cb) (exiting_at (cb_pass cb) (frames s)) in
  allChildren s' = delete (cb_key cb) (allChildren s)
  ∧ exiting_at (cb_pass cb) (frames s') = ex'
  ∧ (cb_key cb ∉ ex')
  ∧ (∀ q, q ≠ cb_pass cb → exiting_at q (frames s') = exiting_at q (frames s))
  ∧ if decide (ex' = []) then
      presentChildren s' = filteredChildrenOf (cb_pass cb)
      ∧ committed s' = target_at (cb_pass cb) (frames s)
      ∧ (onExit cb s).2 =
        (if isMounted s then
           ForceRender :: match onExitCompleteProp_at (cb_pass cb) (frames s) with
                          | Some g => [ExitComplete g]
                          | None => []
                          end
         else [])
    else
      presentChildren s' = presentChildren s
      ∧ committed s' = delete i (committed s)
      ∧ (onExit cb s).2 = [].
Proof.
  intros Hissued Htarget Hfound s' ex'.
  assert (ref_pass (presentChildren s) < length (frames s)) as Hvalid.
  { apply array_at_nonempty. intros Hnil.
    apply findIndex_found in Hfound as (x & Hx & _).
    unfold committed in Hx. by rewrite Hnil in Hx. }
  assert (presentChildren s ≠ filteredChildrenOf (cb_pass cb)) as Halias.
  { intros Heq. apply Htarget.
    apply findIndex_found in Hfound as (x & Hx & Hkey & _).
    apply list_elem_of_fmap. exists x. split.
    - symmetry. by apply getChildKey_of_key.
    - unfold target_at. rewrite <- Heq. by eapply list_elem_of_lookup_2. }
  split_and!.
  - by apply onExit_allChildren.
  - unfold s'. by rewrite onExit_exiting_at, decide_True.
  - unfold ex'. rewrite Set_delete_elem. tauto.
  - intros q Hq. unfold s'. by rewrite onExit_exiting_at, decide_False.
  - unfold s'. rewrite onExit_unfold by done. cbn [fst snd]. fold ex'.
    destruct (decide (ex' = [])).
    + split_and!; [done| |done].
      unfold committed, target_at. cbn [frames presentChildren].
      by rewrite array_at_set_ne, array_at_set_exiting.
    + split_and!; [done| |done].
      unfold committed at 1. cbn [frames presentChildren].
      rewrite array_at_set_eq by by rewrite length_alter.
      rewrite Hfound. apply splice_remove.
Qed.

(** Scenario A: the completion of [b], participant-free, drains the exiting
    set, commits the target [a; c], asks for a re-evaluation and calls the
    global exit callback. *)
Lemma onExit_completes_exit_scenarioA :
  let s' := (onExit (OnExit 1 "b") exiting_b).1 in
  let ex' := Set_delete "b" (exiting_at 1 (frames exiting_b)) in
  allChildren s' = delete "b" (allChildren exiting_b)
  ∧ exiting_at 1 (frames s') = ex'
  ∧ ("b" ∉ ex')
  ∧ (∀ q, q ≠ 1 → exiting_at q (frames s') = exiting_at q (frames exiting_b))
  ∧ if decide (ex' = []) then
      presentChildren s' = filteredChildrenOf 1
      ∧ committed s' = target_at 1 (frames exiting_b)
      ∧ (onExit (OnExit 1 "b") exiting_b).2 =
        (if isMounted exiting_b then
           ForceRender :: match onExitCompleteProp_at 1 (frames exiting_b) with
                          | Some g => [ExitComplete g]
                          | None => []
                          end
         else [])
    else
      presentChildren s' = presentChildren exiting_b
      ∧ committed s' = delete 1 (committed exiting_b)
      ∧ (onExit (OnExit 1 "b") exiting_b).2 = [].
Proof.
  apply (onExit_completes_exit (OnExit 1 "b") exiting_b 1).
  - vm_compute. lia.
  - compute_done.
  - reflexivity.
Defined.

(** ** C7: an exiting key without a descriptor *)

Lemma onExits_snoc cbs cb s :
  onExits (cbs ++ [cb]) s =
  ((onExit cb (onExits cbs s).1).1, (onExits cbs s).2 ++ (onExit cb (onExits cbs s).1).2).
Proof.
  unfold onExits. rewrite foldl_snoc.
  by destruct (onExit cb _).
Qed.

Lemma onExits_length cbs s : length (frames (onExits cbs s).1) = length (frames s).
Proof.
  induction cbs as [|cb cbs IH] using rev_ind; [done|].
  rewrite onExits_snoc. simpl.
  destruct (decide (cb_pass cb < length (frames (onExits cbs s).1))).
  - by rewrite onExit_length.
  - by rewrite onExit_unissued by lia.
Qed.

(** While a key stays in the exiting set of pass [p], the callbacks of [p]
    for other keys never find the set empty. *)
Lemma onExits_blocked p k cbs s :
  p < length (frames s) →
  k ∈ exiting_at p (frames s) →
  Forall (λ cb, cb_pass cb = p ∧ cb_key cb ≠ k) cbs →
  (onExits cbs s).2 = [] ∧ k ∈ exiting_at p (frames (onExits cbs s).1).
Proof.
  intros Hp Hk. induction cbs as [|cb cbs IH] using rev_ind; intros Hcbs; [done|].
  apply Forall_app in Hcbs as [Hcbs [[Hpass Hkey] _]%Forall_cons].
  destruct (IH Hcbs) as [Hevs Hin]. clear IH.
  rewrite onExits_snoc. simpl. rewrite Hevs. simpl.
  assert (cb_pass cb < length (frames (onExits cbs s).1)) as Hissued
    by (rewrite onExits_length; lia).
  assert (k ∈ Set_delete (cb_key cb) (exiting_at (cb_pass cb) (frames (onExits cbs s).1)))
    as Hstill by (rewrite Set_delete_elem, Hpass; split; done).
  split.
  - rewrite onExit_unfold by done. simpl.
    destruct (decide _) as [Hnil|]; [|done].
    rewrite Hnil in Hstill. by apply elem_of_nil in Hstill.
  - rewrite <- Hpass, onExit_exiting_at by done. by rewrite decide_True.
Qed.

(** What the code does with a key scheduled exiting whose descriptor is
    missing from the known-children table: the pass creates no node and no
    completion callback for it; the key stays in the exiting set of the
    pass, where no callback removes it, so the callbacks of that pass for
    the other keys find the set non-empty, request no re-evaluation and do
    not call the global exit callback. *)
Lemma missing_descriptor_is_skipped
    (props : AnimatePresenceProps) (s : Coordinator) (k : string)
    (cbs : list Callback) :
  isInitialRender s = false →
  k ∈ presentKeysOf s →
  k ∉ targetKeysOf props →
  allChildren s !! k = None →
  Forall (λ cb, cb_pass cb = length (frames s) ∧ cb_key cb ≠ k) cbs →
  (∀ e, e ∈ (pass props s).2 → node_callback e ≠ Some (OnExit (length (frames s)) k))
  ∧ k ∈ exitingSet (pass props s).1
  ∧ (onExits cbs (pass props s).1).2 = []
  ∧ k ∈ exitingSet (onExits cbs (pass props s).1).1.
Proof.
  intros Hlater Hpresent Htarget Hmissing Hcbs.
  assert (k ∈ exitingSet (pass props s).1) as Hex.
  { rewrite pass_exitingSet, Hlater. by apply exitingOf_elem. }
  assert (length (frames s) < length (frames (pass props s).1)) as Hp.
  { destruct (pass_frames props s) as (f & -> & _). rewrite length_app. simpl. lia. }
  unfold exitingSet in Hex. rewrite pass_latest in Hex.
  destruct (onExits_blocked _ k cbs _ Hp Hex Hcbs) as [Hevs Hstill].
  split_and!.
  - intros e. rewrite pass_later by done. simpl. unfold renderedOf.
    intros (e0 & -> & He0)%list_elem_of_fmap.
    apply splicedOf_elem in He0 as [He0|(key & child & Hkey & Hchild & ->)].
    + by rewrite wrapUnlessExiting_target.
    + unfold wrapUnlessExiting, exitingNode, wrapExiting. simpl.
      destruct (Set_has _ _); simpl; [|done].
      intros [= ->]. congruence.
  - unfold exitingSet. by rewrite pass_latest.
  - done.
  - unfold exitingSet.
    replace (latest (onExits cbs (pass props s).1).1) with (length (frames s));
      [done|].
    unfold latest. rewrite onExits_length. symmetry. apply pass_latest.
Qed.

(** The lemma at the state [sys_unkeyed_lost] and the empty target: the key
    [""] has no descriptor, and the callback of [z] is blocked. *)
Lemma missing_descriptor_is_skipped_unkeyed :
  (∀ e, e ∈ (pass (propsOf []) (coordinator sys_unkeyed_lost)).2 →
        node_callback e ≠ Some (OnExit 3 ""))
  ∧ "" ∈ exitingSet (pass (propsOf []) (coordinator sys_unkeyed_lost)).1
  ∧ (onExits [OnExit 3 "z"] (pass (propsOf []) (coordinator sys_unkeyed_lost)).1).2 = []
  ∧ "" ∈ exitingSet
           (onExits [OnExit 3 "z"] (pass (propsOf []) (coordinator sys_unkeyed_lost)).1).1.
Proof.
  apply (missing_descriptor_is_skipped (propsOf []) (coordinator sys_unkeyed_lost) ""
           [OnExit 3 "z"]).
  - reflexivity.
  - compute_done.
  - compute_done.
  - reflexivity.
  - compute_done.
Qed.

(** C7: the code does not do what the claim says. The key is skipped
    without an error, but it does keep the exiting set non-empty and it does
    block the re-evaluation and the global exit callback. The host has been
    driven to a state whose committed sequence is [z] and an unkeyed child,
    the known-children table holding [z] only (see [sys_unkeyed_lost]). The
    next target is empty: the key [""] is scheduled exiting and skipped,
    [z] is rendered exiting and, having no participant, completes within the
    pass; its callback finds [""] in the exiting set: it requests no
    re-evaluation and does not call the global exit callback, and the
    [PresenceChild] of [z] stays mounted. *)
Lemma missing_descriptor_blocks_exit :
  reachable sys_unkeyed_lost
  ∧ presentKeysOf (coordinator sys_unkeyed_lost) = ["z"; ""]
  ∧ allChildren (coordinator sys_unkeyed_lost) !! "" = None
  ∧ (pass (propsOf []) (coordinator sys_unkeyed_lost)).2
    = [PresenceChild (Some "z") false (Some (OnExit 3 "z")) None None sync (el "z")]
  ∧ since sys_unkeyed_lost (host_pass (propsOf []) sys_unkeyed_lost)
    = [Fired (OnExit 3 "z")]
  ∧ exitingSet (coordinator (host_pass (propsOf []) sys_unkeyed_lost)) = [""]
  ∧ is_Some (instances (host_pass (propsOf []) sys_unkeyed_lost) !! "z").
Proof.
  split; [by eexists|]. split_and!; compute_done.
Qed.

(** ** C1: reporting done twice *)





(** ** The host *)

Lemma fired_app evs1 evs2 : fired (evs1 ++ evs2) = fired evs1 ++ fired evs2.
Proof. unfold fired. apply omap_app. Qed.

Lemma onExit_fired cb s : fired (onExit cb s).2 = [].
Proof.
  unfold onExit. destruct (frames s !! cb_pass cb); [|done].
  simpl. repeat case_match; done.
Qed.

Lemma fire_fired cb s : fired (fire cb s).2 = option_list cb.
Proof.
  destruct cb as [cb|]; [|done]. unfold fire.
  pose proof (onExit_fired cb s) as Hf.
  destruct (onExit cb s) as [s' evs]. simpl in *. by rewrite Hf.
Qed.

Lemma fire_onExits cb s : (fire cb s).1 = (onExits (option_list cb) s).1.
Proof.
  destruct cb as [cb|]; [|done]. unfold fire, onExits. simpl.
  by destruct (onExit cb s).
Qed.

Lemma onExits_app cbs1 cbs2 s :
  (onExits (cbs1 ++ cbs2) s).1 = (onExits cbs2 (onExits cbs1 s).1).1.
Proof.
  induction cbs2 as [|cb cbs2 IH] using rev_ind.
  - by rewrite app_nil_r.
  - rewrite app_assoc, !onExits_snoc. simpl. by rewrite IH.
Qed.

Lemma reconcile_snoc old out e :
  reconcile old (out ++ [e]) =
  match e with
  | PresenceChild (Some k) isPresent onExitComplete initial custom _ _ =>
      let r := PresenceChild_render isPresent onExitComplete initial custom (old !! k) in
      (<[k := r.1]> (reconcile old out).1,
       if r.2 then (reconcile old out).2 ++ [(k, isPresent, onExitComplete)]
       else (reconcile old out).2)
  | _ => reconcile old out
  end.
Proof.
  unfold reconcile. rewrite foldl_snoc.
  destruct e as [|[k|] ? ? ? ? ? ?]; [done| |done].
  by destruct (PresenceChild_render _ _ _ _ _).
Qed.

(** Every instance after a pass comes from a returned [<PresenceChild>] with
    its key, invoked on the instance that was there before. *)
Lemma reconcile_instance old out k i :
  (reconcile old out).1 !! k = Some i →
  ∃ isPresent onExitComplete initial custom mode child,
    PresenceChild (Some k) isPresent onExitComplete initial custom mode child ∈ out
    ∧ i = (PresenceChild_render isPresent onExitComplete initial custom (old !! k)).1.
Proof.
  induction out as [|e out IH] using rev_ind.
  - unfold reconcile. simpl. by rewrite lookup_empty.
  - rewrite reconcile_snoc. intros Hi.
    assert (∀ x, x ∈ out → x ∈ out ++ [e]) as Hmono by (intros; set_solver).
    destruct e as [|[k'|] ip cb ini cus m ch].
    + destruct (IH Hi) as (?&?&?&?&?&?&?&?). naive_solver.
    + simpl in Hi. destruct (decide (k' = k)) as [->|Hne].
      * rewrite lookup_insert_eq in Hi. injection Hi as <-.
        exists ip, cb, ini, cus, m, ch. split; [|done]. set_solver.
      * rewrite lookup_insert_ne in Hi by done.
        destruct (IH Hi) as (?&?&?&?&?&?&?&?). naive_solver.
    + destruct (IH Hi) as (?&?&?&?&?&?&?&?). naive_solver.
Qed.

Lemma reconcile_mounts old out k isPresent onExitComplete initial custom mode child :
  PresenceChild (Some k) isPresent onExitComplete initial custom mode child ∈ out →
  is_Some ((reconcile old out).1 !! k).
Proof.
  induction out as [|e out IH] using rev_ind; [by intros ?%elem_of_nil|].
  rewrite reconcile_snoc. intros [Hin| <-%list_elem_of_singleton]%elem_of_app.
  - destruct e as [|[k'|] ? ? ? ? ? ?]; try by apply IH.
    simpl. destruct (decide (k' = k)) as [->|].
    + rewrite lookup_insert_eq. eauto.
    + rewrite lookup_insert_ne by done. by apply IH.
  - simpl. rewrite lookup_insert_eq. eauto.
Qed.

(** The effects scheduled are those of the returned [<PresenceChild>]ren
    whose [isPresent] changed, or that mount. *)
(** With distinct keys every returned element has an instance of its own:
    the one its own invocation leaves, on the instance its key had. *)
Lemma reconcile_distinct old out k isPresent onExitComplete initial custom mode child :
  NoDup (getChildKey <$> out) →
  PresenceChild (Some k) isPresent onExitComplete initial custom mode child ∈ out →
  (reconcile old out).1 !! k
  = Some (PresenceChild_render isPresent onExitComplete initial custom (old !! k)).1.
Proof.
  induction out as [|e out IH] using rev_ind; [by intros _ ?%elem_of_nil|].
  rewrite fmap_app. intros (Hout & Hfresh & _)%NoDup_app Hin.
  assert (getChildKey e ∉ getChildKey <$> out) as He.
  { intros He. apply (Hfresh _ He). set_solver. }
  rewrite reconcile_snoc.
  apply elem_of_app in Hin as [Hin|Hin].
  - assert (k ∈ getChildKey <$> out) as Hk.
    { apply list_elem_of_fmap. eexists. split; [|exact Hin].
      symmetry. by apply getChildKey_of_key. }
    destruct e as [|[k'|] ip cbo ini cus m ch]; [by apply IH| |by apply IH].
    cbn [fst]. rewrite lookup_insert_ne; [by apply IH|].
    intros ->. apply He. by rewrite (getChildKey_of_key _ k).
  - apply list_elem_of_singleton in Hin as <-.
    cbn [fst]. by rewrite lookup_insert_eq.
Qed.

Lemma reconcile_effect old out k isPresent onExitComplete :
  (k, isPresent, onExitComplete) ∈ (reconcile old out).2 ↔
  ∃ initial custom mode child,
    PresenceChild (Some k) isPresent onExitComplete initial custom mode child ∈ out
    ∧ (PresenceChild_render isPresent onExitComplete initial custom (old !! k)).2 = true.
Proof.
  induction out as [|e out IH] using rev_ind.
  - unfold reconcile. simpl. split; [by intros ?%elem_of_nil|].
    by intros (?&?&?&?&?%elem_of_nil&_).
  - rewrite reconcile_snoc.
    assert (∀ x, x ∈ out ++ [e] ↔ x ∈ out ∨ x = e) as Hsnoc by (intros; set_solver).
    destruct e as [|[k'|] ip cb ini cus m ch]; simpl.
    + rewrite IH. setoid_rewrite Hsnoc. naive_solver.
    + destruct (PresenceChild_render ip cb ini cus (old !! k')).2 eqn:Hrun.
      * rewrite elem_of_app, list_elem_of_singleton, IH. setoid_rewrite Hsnoc.
        split.
        -- intros [(?&?&?&?&?&?)|[= -> -> ->]]; [naive_solver|].
           exists ini, cus, m, ch. split; [by right|done].
        -- intros (?&?&?&?&[?|[= -> -> -> -> -> -> ->]]&?); [left; naive_solver|].
           by right.
      * rewrite IH. setoid_rewrite Hsnoc. split; [naive_solver|].
        intros (?&?&?&?&[?|[= -> -> -> -> -> -> ->]]&?); [naive_solver|].
        congruence.
    + rewrite IH. setoid_rewrite Hsnoc. naive_solver.
Qed.

Lemma runEffects_snoc insts effs eff s :
  runEffects insts (effs ++ [eff]) s =
  let r := runEffects insts effs s in
  let f := fire (effect_callback insts eff) r.1 in
  (f.1, r.2 ++ f.2).
Proof.
  unfold runEffects. rewrite foldl_snoc.
  destruct eff as [[k ip] cb]. unfold effect_callback.
  destruct (insts !! k) as [i|]; simpl.
  - by destruct (fire _ _).
  - rewrite app_nil_r. by destruct (foldl _ _ _).
Qed.

(** Running the effects is running the callbacks they call, in order. *)
Lemma runEffects_onExits insts effs s :
  (runEffects insts effs s).1 = (onExits (omap (effect_callback insts) effs) s).1
  ∧ fired (runEffects insts effs s).2 = omap (effect_callback insts) effs.
Proof.
  induction effs as [|eff effs IH] using rev_ind.
  - done.
  - destruct IH as [IH1 IH2].
    rewrite runEffects_snoc, omap_app. simpl.
    rewrite fired_app, fire_fired, fire_onExits, IH1, IH2, onExits_app.
    split; [|done]. by destruct (effect_callback insts eff).
Qed.

Lemma runEffects_none insts effs s :
  omap (effect_callback insts) effs = [] → runEffects insts effs s = (s, []).
Proof.
  induction effs as [|eff effs IH] using rev_ind; [done|].
  rewrite omap_app. intros [H1 H2]%app_eq_nil.
  rewrite runEffects_snoc, IH by done. simpl in *.
  by destruct (effect_callback insts eff).
Qed.

Lemma host_pass_unfold props sys :
  host_pass props sys =
  let out := (pass props (coordinator sys)).2 in
  let r := reconcile (instances sys) out in
  let e := runEffects r.1 r.2 (pass props (coordinator sys)).1 in
  MkSystem e.1 r.1 (trace sys ++ e.2).
Proof.
  unfold host_pass. destruct (pass props (coordinator sys)) as [s1 out].
  simpl. destruct (reconcile (instances sys) out) as [insts effs]. simpl.
  by destruct (runEffects insts effs s1).
Qed.

(** *** The nodes a pass returns *)

Lemma pass_output_nodes props s e :
  e ∈ (pass props s).2 →
  (∃ c, c ∈ onlyElements (props_children props)
        ∧ e = wrapInitial (props_initial props) (props_mode props) c)
  ∨ (∃ c, e = wrapPresent (props_mode props) c)
  ∨ (isInitialRender s = false
     ∧ ∃ key child, key ∈ exitingOf props s ∧ allChildren s !! key = Some child
                    ∧ getChildKey child ∈ exitingOf props s
                    ∧ e = exitingNode props s key child).
Proof.
  destruct (isInitialRender s) eqn:Hi.
  - rewrite pass_first by done. simpl.
    intros (c & -> & Hc)%list_elem_of_fmap. left. eauto.
  - rewrite pass_later by done. simpl. unfold renderedOf.
    intros (e0 & -> & He0)%list_elem_of_fmap. right.
    apply splicedOf_elem in He0 as [He0|(key & child & Hkey & Hchild & ->)].
    + left. exists e0. by apply wrapUnlessExiting_target.
    + destruct (decide (getChildKey child ∈ exitingOf props s)) as [Hin|Hout].
      * right. split; [done|]. exists key, child.
        by rewrite wrapUnlessExiting_exiting.
      * left. eexists. unfold wrapUnlessExiting, exitingNode, wrapExiting. simpl.
        unfold Set_has. by rewrite bool_decide_eq_false_2.
Qed.

(** With a consistent table a returned node carries a callback only if it
    is the exiting node of its own key. *)
Lemma pass_output_callback props s k isPresent cb initial custom mode child :
  table_ok (allChildren s) →
  PresenceChild (Some k) isPresent (Some cb) initial custom mode child
    ∈ (pass props s).2 →
  isInitialRender s = false ∧ isPresent = false
  ∧ cb = OnExit (length (frames s)) k ∧ k ∈ exitingOf props s
  ∧ allChildren s !! k = Some child.
Proof.
  intros Htable [(c & _ & He)|[(c & He)|(Hi & key & ch & Hkey & Hch & _ & He)]]%pass_output_nodes.
  - unfold wrapInitial in He. congruence.
  - unfold wrapPresent in He. congruence.
  - unfold exitingNode, wrapExiting in He. injection He as -> -> -> _ _ _ ->.
    rewrite (Htable key ch Hch). done.
Qed.

Lemma pass_isInitialRender props s : isInitialRender (pass props s).1 = false.
Proof.
  destruct (isInitialRender s) eqn:Hi;
    [rewrite pass_first by done|rewrite pass_later by done]; done.
Qed.

Lemma pass_length props s : length (frames (pass props s).1) = S (length (frames s)).
Proof.
  destruct (pass_frames props s) as (f & -> & _). rewrite length_app. simpl. lia.
Qed.

(** *** Runs of callbacks *)

Lemma onExit_table cb s k c :
  allChildren (onExit cb s).1 !! k = Some c → allChildren s !! k = Some c.
Proof.
  destruct (decide (cb_pass cb < length (frames s))).
  - rewrite onExit_allChildren by done. by intros [_ ?]%lookup_delete_Some.
  - by rewrite onExit_unissued by lia.
Qed.

Lemma onExits_table cbs s k c :
  allChildren (onExits cbs s).1 !! k = Some c → allChildren s !! k = Some c.
Proof.
  induction cbs as [|cb cbs IH] using rev_ind; [done|].
  rewrite onExits_snoc. simpl. intros Hk. by apply onExit_table, IH in Hk.
Qed.

Lemma onExits_table_ok cbs s : table_ok (allChildren s) → table_ok (allChildren (onExits cbs s).1).
Proof. intros Hok k c Hk. by apply onExits_table, Hok in Hk. Qed.

Lemma onExits_isInitialRender cbs s :
  isInitialRender (onExits cbs s).1 = isInitialRender s.
Proof.
  induction cbs as [|cb cbs IH] using rev_ind; [done|].
  rewrite onExits_snoc. simpl.
  destruct (decide (cb_pass cb < length (frames (onExits cbs s).1))).
  - by rewrite onExit_isInitialRender.
  - by rewrite onExit_unissued by lia.
Qed.

Lemma onExits_deleted cbs s cb :
  cb ∈ cbs → cb_pass cb < length (frames s) →
  allChildren (onExits cbs s).1 !! cb_key cb = None.
Proof.
  intros Hin Hp. induction cbs as [|cb' cbs IH] using rev_ind.
  - by apply elem_of_nil in Hin.
  - rewrite onExits_snoc. simpl.
    apply elem_of_app in Hin as [Hin| ->%list_elem_of_singleton].
    + destruct (allChildren (onExit cb' (onExits cbs s).1).1 !! cb_key cb) eqn:E; [|done].
      apply onExit_table in E. by rewrite IH in E.
    + rewrite onExit_allChildren by by rewrite onExits_length.
      apply lookup_delete_eq.
Qed.

(** *** What the host keeps true *)

Lemma host_pass_fields props sys :
  ∃ cbs evs,
    cbs = omap (effect_callback (reconcile (instances sys)
                                   (pass props (coordinator sys)).2).1)
            (reconcile (instances sys) (pass props (coordinator sys)).2).2
    ∧ coordinator (host_pass props sys)
      = (onExits cbs (pass props (coordinator sys)).1).1
    ∧ instances (host_pass props sys)
      = (reconcile (instances sys) (pass props (coordinator sys)).2).1
    ∧ trace (host_pass props sys) = trace sys ++ evs
    ∧ fired evs = cbs.
Proof.
  rewrite host_pass_unfold. cbn zeta. cbn [coordinator instances trace].
  set (r := reconcile _ _). set (s1 := (pass _ _).1).
  destruct (runEffects_onExits r.1 r.2 s1) as [H1 H2].
  exists (omap (effect_callback r.1) r.2), (runEffects r.1 r.2 s1).2.
  by rewrite H1, H2.
Qed.

Lemma booted_ok : sys_ok booted.
Proof.
  split; [apply table_ok_empty|]. intros k i. unfold booted. simpl.
  by rewrite lookup_empty.
Qed.

Lemma host_pass_ok props sys : sys_ok sys → sys_ok (host_pass props sys).
Proof.
  intros [Htable Hinst].
  destruct (host_pass_fields props sys) as (cbs & evs & _ & Hc & Hi & _ & _).
  split.
  - rewrite Hc. apply onExits_table_ok. rewrite pass_allChildren.
    by apply table_ok_update.
  - intros k i. rewrite Hi, Hc. intros Hk.
    rewrite onExits_isInitialRender, pass_isInitialRender, onExits_length, pass_length.
    split; [done|]. intros cb Hcb.
    apply reconcile_instance in Hk as (ip & cbo & ini & cus & m & ch & Hin & ->).
    unfold PresenceChild_render in Hcb |- *.
    destruct (instances sys !! k) as [i0|] eqn:Hi0.
    + destruct (decide (ctx_isPresent i0 = ip)) as [Heq|Hne].
      * destruct (Hinst k i0 Hi0) as [_ Hold].
        destruct (Hold cb Hcb) as (? & ? & ?). split_and!; [done..|lia].
      * simpl in Hcb |- *. subst cbo.
        apply pass_output_callback in Hin as (_ & -> & -> & _); [|done].
        simpl. split_and!; [done..|lia].
    + simpl in Hcb |- *. subst cbo.
      apply pass_output_callback in Hin as (_ & -> & -> & _); [|done].
      simpl. split_and!; [done..|lia].
Qed.

Lemma fire_fields cb s :
  (fire cb s).1 = (onExits (option_list cb) s).1 ∧ fired (fire cb s).2 = option_list cb.
Proof. split; [apply fire_onExits|apply fire_fired]. Qed.

Lemma host_reportDone_fields k childId sys i :
  instances sys !! k = Some i →
  ∃ evs,
    coordinator (host_reportDone k childId sys)
    = (onExits (option_list (context_onExitComplete childId i).2) (coordinator sys)).1
    ∧ instances (host_reportDone k childId sys)
      = <[k := (context_onExitComplete childId i).1]> (instances sys)
    ∧ trace (host_reportDone k childId sys) = trace sys ++ evs
    ∧ fired evs = option_list (context_onExitComplete childId i).2.
Proof.
  intros Hi. unfold host_reportDone. rewrite Hi.
  destruct (context_onExitComplete childId i) as [i' cb]. simpl.
  destruct (fire_fields cb (coordinator sys)) as [H1 H2].
  destruct (fire cb (coordinator sys)) as [s' evs]. simpl in *.
  exists evs. by rewrite H1.
Qed.

Lemma host_reportDone_ok k childId sys : sys_ok sys → sys_ok (host_reportDone k childId sys).
Proof.
  intros [Htable Hinst].
  destruct (instances sys !! k) as [i|] eqn:Hi.
  2:{ unfold host_reportDone. by rewrite Hi. }
  destruct (host_reportDone_fields k childId sys i Hi) as (evs & Hc & Hi' & _ & _).
  split.
  - rewrite Hc. by apply onExits_table_ok.
  - intros k' i'. rewrite Hi', Hc, onExits_isInitialRender, onExits_length.
    destruct (decide (k = k')) as [<-|Hne].
    + rewrite lookup_insert_eq. intros [= <-]. by apply (Hinst k i).
    + rewrite lookup_insert_ne by done. apply Hinst.
Qed.

Lemma host_register_ok k childId sys : sys_ok sys → sys_ok (host_register k childId sys).
Proof.
  intros [Htable Hinst]. unfold host_register.
  destruct (instances sys !! k) as [i|] eqn:Hi; [|done].
  split; [done|]. intros k' i'. simpl.
  destruct (decide (k = k')) as [<-|Hne].
  - rewrite lookup_insert_eq. intros [= <-]. by apply (Hinst k i).
  - rewrite lookup_insert_ne by done. apply Hinst.
Qed.

Lemma host_unregister_ok k childId sys :
  sys_ok sys → sys_ok (host_unregister k childId sys).
Proof.
  intros [Htable Hinst]. unfold host_unregister.
  destruct (instances sys !! k) as [i|] eqn:Hi; [|done].
  split; [done|]. intros k' i'. simpl.
  destruct (decide (k = k')) as [<-|Hne].
  - rewrite lookup_insert_eq. intros [= <-]. by apply (Hinst k i).
  - rewrite lookup_insert_ne by done. apply Hinst.
Qed.

Lemma exec_ok sys op : sys_ok sys → sys_ok (exec sys op).
Proof.
  destruct op; simpl;
    auto using host_pass_ok, host_register_ok, host_unregister_ok, host_reportDone_ok.
Qed.

Lemma run_snoc ops op sys : run (ops ++ [op]) sys = exec (run ops sys) op.
Proof. unfold run. by rewrite foldl_snoc. Qed.

Lemma run_ok ops sys : sys_ok sys → sys_ok (run ops sys).
Proof.
  intros Hok. induction ops as [|op ops IH] using rev_ind; [done|].
  rewrite run_snoc. by apply exec_ok.
Qed.

Lemma reachable_ok sys : reachable sys → sys_ok sys.
Proof. intros [ops ->]. apply run_ok, booted_ok. Qed.

(** *** Events only accumulate *)



Lemma since_spec sys sys' evs : trace sys' = trace sys ++ evs → since sys sys' = evs.
Proof. intros Htr. unfold since. rewrite Htr. apply drop_app_length. Qed.


(** ** C4: an exiting key without participants completes at once *)

Lemma exitingNode_returned props s k child :
  isInitialRender s = false →
  k ∈ presentKeysOf s → k ∉ targetKeysOf props →
  allChildren s !! k = Some child → getChildKey child = k →
  PresenceChild (Some k) false (Some (OnExit (length (frames s)) k)) None
    (props_custom props) (props_mode props) child ∈ (pass props s).2.
Proof.
  intros Hi Hp Ht Hc Hk. rewrite pass_later by done. simpl. unfold renderedOf.
  assert (k ∈ exitingOf props s) as Hex by by apply exitingOf_elem.
  apply list_elem_of_fmap. exists (exitingNode props s k child). split.
  - rewrite wrapUnlessExiting_exiting by by rewrite Hk.
    unfold exitingNode, wrapExiting. by rewrite Hk.
  - apply splicedOf_elem. right. eauto.
Qed.

(** C4. In a pass that classifies [k] as exiting (committed, absent from the
    target, with a descriptor), if the [PresenceChild] of [k] mounts or was
    present until now and its registry is empty, the completion callback of
    [k] is called within that same pass, by the effect of the
    [PresenceChild], without any report of a participant; the known-children
    table has lost [k] when the pass is over. *)
Theorem zero_registrants_complete_at_once
    (props : AnimatePresenceProps) (sys : System) (k : string)
    (child : ReactElement) :
  isInitialRender (coordinator sys) = false →
  k ∈ presentKeysOf (coordinator sys) →
  k ∉ targetKeysOf props →
  allChildren (coordinator sys) !! k = Some child →
  getChildKey child = k →
  (∀ i, instances sys !! k = Some i →
        ctx_isPresent i = true ∧ presenceChildren i = ∅) →
  OnExit (length (frames (coordinator sys))) k
    ∈ fired (since sys (host_pass props sys))
  ∧ allChildren (coordinator (host_pass props sys)) !! k = None.
Proof.
  intros Hlater Hp Ht Hc Hk Hreg.
  set (cb := OnExit (length (frames (coordinator sys))) k).
  destruct (host_pass_fields props sys) as (cbs & evs & Hcbs & Hcoord & Hinsts & Htr & Hfired).
  pose proof (exitingNode_returned props _ k child Hlater Hp Ht Hc Hk) as Hnode.
  fold cb in Hnode.
  assert (cb ∈ cbs) as Hin.
  { rewrite Hcbs. apply list_elem_of_omap. exists (k, false, Some cb). split.
    - apply reconcile_effect. eexists _, _, _, _. split; [exact Hnode|].
      unfold PresenceChild_render.
      destruct (instances sys !! k) as [i|] eqn:Hi; [|done].
      destruct (Hreg i eq_refl) as [Hpres _].
      by rewrite decide_False by (rewrite Hpres; done).
    - unfold effect_callback.
      destruct (reconcile_mounts (instances sys) _ _ _ _ _ _ _ _ Hnode) as [i' Hi'].
      rewrite Hi'. simpl.
      apply reconcile_instance in Hi' as (ip & cbo & ini & cus & m & ch & _ & ->).
      unfold PresenceChild_effect. simpl.
      rewrite bool_decide_eq_true_2; [done|].
      unfold PresenceChild_render.
      destruct (instances sys !! k) as [i|] eqn:Hi.
      + destruct (Hreg i eq_refl) as [_ Hempty].
        destruct (decide _); simpl; rewrite Hempty; [done|].
        by rewrite resetAll_empty.
      + simpl. by rewrite resetAll_empty. }
  split.
  - by rewrite (since_spec _ _ evs Htr), Hfired.
  - rewrite Hcoord. apply (onExits_deleted cbs _ cb Hin).
    rewrite pass_length. simpl. lia.
Qed.

(** Scenario A without participants: [b] completes within the pass that
    removes it from the target. *)
Lemma zero_registrants_complete_at_once_scenarioA :
  OnExit 1 "b" ∈ fired (since sys_abc (host_pass (propsOf [el "a"; el "c"]) sys_abc))
  ∧ allChildren (coordinator (host_pass (propsOf [el "a"; el "c"]) sys_abc)) !! "b" = None.
Proof.
  apply (zero_registrants_complete_at_once
           (propsOf [el "a"; el "c"]) sys_abc "b" (el "b")).
  - reflexivity.
  - compute_done.
  - compute_done.
  - reflexivity.
  - reflexivity.
  - intros i Hi. vm_compute in Hi. injection Hi as <-. split; reflexivity.
Defined.

(** ** C3: a key that comes back *)



(** The callbacks called during a pass are those of its own exiting keys. *)
Lemma host_pass_fired props sys cb :
  table_ok (allChildren (coordinator sys)) →
  cb ∈ fired (since sys (host_pass props sys)) →
  cb_pass cb = length (frames (coordinator sys))
  ∧ cb_key cb ∈ exitingOf props (coordinator sys).
Proof.
  intros Htable.
  destruct (host_pass_fields props sys) as (cbs & evs & -> & _ & _ & Htr & Hfired).
  rewrite (since_spec _ _ evs Htr), Hfired.
  intros ([[k ip] cbo] & Heff & Hcb)%list_elem_of_omap.
  unfold effect_callback in Hcb.
  destruct (_ !! k) as [i|]; [|done]. simpl in Hcb.
  unfold PresenceChild_effect in Hcb.
  destruct (negb ip && _); [|done]. subst cbo.
  apply reconcile_effect in Heff as (ini & cus & m & ch & Hin & _).
  by apply pass_output_callback in Hin as (_ & _ & -> & ? & _).
Qed.




Lemma onExits_exiting_at cbs s q k :
  k ∈ exiting_at q (frames (onExits cbs s).1) → k ∈ exiting_at q (frames s).
Proof.
  induction cbs as [|cb cbs IH] using rev_ind; [done|].
  rewrite onExits_snoc. simpl. intros Hk. apply IH.
  destruct (decide (cb_pass cb < length (frames (onExits cbs s).1))).
  - rewrite onExit_exiting_at in Hk by done.
    case_decide; [|done]. subst q. by apply Set_delete_elem in Hk as [_ ?].
  - by rewrite onExit_unissued in Hk by lia.
Qed.










(** ** C6: the same keys twice *)

Lemma array_set_sublist r r' l fs :
  l `sublist_of` array_at r fs →
  array_at r' (array_set r l fs) `sublist_of` array_at r' fs.
Proof.
  intros Hl. destruct (decide (r = r')) as [<-|Hne].
  - destruct (decide (ref_pass r < length fs)).
    + by rewrite array_at_set_eq.
    + destruct r as [p|p]; simpl in *;
        rewrite list_lookup_alter_eq, lookup_ge_None_2 by lia; done.
  - by rewrite array_at_set_ne.
Qed.

(** The arrays only lose elements when callbacks run. *)
Lemma onExit_array_sublist cb s r :
  array_at r (frames (onExit cb s).1) `sublist_of` array_at r (frames s).
Proof.
  destruct (decide (cb_pass cb < length (frames s))).
  - rewrite onExit_unfold by done. cbn [fst frames]. etrans.
    + apply array_set_sublist. rewrite array_at_set_exiting.
      apply splice_remove_sublist.
    + by rewrite array_at_set_exiting.
  - by rewrite onExit_unissued by lia.
Qed.

Lemma onExits_array_sublist cbs s r :
  array_at r (frames (onExits cbs s).1) `sublist_of` array_at r (frames s).
Proof.
  induction cbs as [|cb cbs IH] using rev_ind; [done|].
  rewrite onExits_snoc. simpl. etrans; [apply onExit_array_sublist|done].
Qed.

(** The callback that empties the exiting set of its pass commits what is
    left of the target of that pass. *)
Lemma onExit_drained cb s :
  cb_pass cb < length (frames s) →
  exiting_at (cb_pass cb) (frames (onExit cb s).1) = [] →
  committed (onExit cb s).1 `sublist_of` target_at (cb_pass cb) (frames s).
Proof.
  intros Hp Hnil.
  assert (presentChildren (onExit cb s).1 = filteredChildrenOf (cb_pass cb)) as Hptr.
  { rewrite onExit_exiting_at, decide_True in Hnil by done.
    rewrite onExit_unfold by done. simpl. by rewrite decide_True. }
  unfold committed. rewrite Hptr. apply onExit_array_sublist.
Qed.

Lemma renderedOf_no_exits props s :
  exitingOf props s = [] →
  renderedOf props s = wrapPresent (props_mode props) <$> onlyElements (props_children props).
Proof.
  intros Hnil. unfold renderedOf, splicedOf. rewrite Hnil. simpl.
  apply list_fmap_ext. intros i c Hc. rewrite <- Hnil.
  apply wrapUnlessExiting_target. by eapply list_elem_of_lookup_2.
Qed.

Lemma getChildKey_wrapPresent mode c : getChildKey (wrapPresent mode c) = getChildKey c.
Proof. by apply getChildKey_of_key. Qed.

(** A pass after which the exiting set is empty has committed keys of its
    target only. *)
Lemma host_pass_settled props sys k :
  table_ok (allChildren (coordinator sys)) →
  exitingSet (coordinator (host_pass props sys)) = [] →
  k ∈ presentKeysOf (coordinator (host_pass props sys)) →
  k ∈ targetKeysOf props.
Proof.
  intros Htable Hnil Hk.
  pose proof (host_pass_fired props sys) as Hpass.
  destruct (host_pass_fields props sys) as (cbs & evs & _ & Hcoord & _ & Htr & Hfired).
  rewrite (since_spec _ _ evs Htr), Hfired in Hpass.
  rewrite Hcoord in Hnil, Hk. clear Hcoord Htr Hfired evs.
  set (s := coordinator sys) in *.
  unfold presentKeysOf in Hk. apply list_elem_of_fmap in Hk as (e & -> & He).
  destruct cbs as [|cb cbs _] using rev_ind.
  - unfold onExits in Hnil, He. simpl in Hnil, He.
    rewrite pass_exitingSet in Hnil.
    destruct (isInitialRender s) eqn:Hi.
    + rewrite pass_committed_first in He by done.
      apply list_elem_of_fmap. eauto.
    + rewrite pass_committed_later, renderedOf_no_exits in He by done.
      apply list_elem_of_fmap in He as (c & -> & Hc).
      rewrite getChildKey_wrapPresent. apply list_elem_of_fmap. eauto.
  - rewrite onExits_snoc in Hnil, He. simpl in Hnil, He.
    assert (cb_pass cb = length (frames s)) as Hp.
    { apply (Hpass cb Htable). apply elem_of_app. right. by left. }
    assert (cb_pass cb < length (frames (onExits cbs (pass props s).1).1)) as Hissued.
    { rewrite onExits_length, pass_length. lia. }
    unfold exitingSet, latest in Hnil.
    rewrite onExit_length in Hnil by done.
    rewrite onExits_length, pass_length in Hnil. simpl in Hnil.
    rewrite <- Hp in Hnil.
    pose proof (onExit_drained cb _ Hissued Hnil) as Hsub.
    assert (e ∈ onlyElements (props_children props)) as Hin.
    { eapply elem_of_sublist; [exact He|].
      etrans; [exact Hsub|]. etrans; [apply onExits_array_sublist|].
      unfold target_at. simpl. rewrite Hp.
      destruct (pass_frames props s) as (f & -> & <- & _).
      by rewrite frames_lookup_new. }
    apply list_elem_of_fmap. eauto.
Qed.

Lemma host_pass_none props sys :
  exitingOf props (coordinator sys) = [] →
  isInitialRender (coordinator sys) = false →
  host_pass props sys =
  MkSystem (pass props (coordinator sys)).1
    (reconcile (instances sys) (pass props (coordinator sys)).2).1 (trace sys).
Proof.
  intros Hnil Hlater. rewrite host_pass_unfold. cbn zeta.
  rewrite runEffects_none; [simpl; by rewrite app_nil_r|].
  set (r := reconcile _ _).
  destruct (omap (effect_callback r.1) r.2) as [|cb cbs] eqn:E; [done|].
  assert (cb ∈ omap (effect_callback r.1) r.2) as Hcb by (rewrite E; left).
  apply list_elem_of_omap in Hcb as ([[k ip] cbo] & Heff & Hcb).
  apply reconcile_effect in Heff as (ini & cus & m & ch & Hin & _).
  rewrite pass_later, renderedOf_no_exits in Hin by done. simpl in Hin.
  apply list_elem_of_fmap in Hin as (c & Hc & _).
  unfold wrapPresent in Hc. injection Hc as _ -> _ _ _ _ _.
  unfold effect_callback in Hcb. destruct (r.1 !! k); done.
Qed.

Lemma host_pass_all_quiet props sys :
  sys_ok sys →
  exitingOf props (coordinator sys) = [] →
  isInitialRender (coordinator sys) = false →
  all_quiet (host_pass props sys).
Proof.
  intros [_ Hinst] Hnil Hlater. rewrite host_pass_none by done.
  intros k i. simpl.
  intros (ip & cbo & ini & cus & m & ch & Hin & ->)%reconcile_instance.
  rewrite pass_later, renderedOf_no_exits in Hin by done. simpl in Hin.
  apply list_elem_of_fmap in Hin as (c & Hc & _).
  unfold wrapPresent in Hc. injection Hc as _ -> -> _ _ _ _.
  unfold PresenceChild_render.
  destruct (instances sys !! k) as [i0|] eqn:Hi0; [|done].
  destruct (decide _) as [Hsame|]; [|done]. simpl.
  destruct (ctx_onExitComplete i0) as [cb|] eqn:Hcb; [|done].
  destruct (Hinst k i0 Hi0) as [_ Hctx].
  destruct (Hctx cb Hcb) as [Hfalse _]. congruence.
Qed.

(** While no context carries a callback, what participants do reaches
    neither the coordinator nor the caller. *)
Lemma participant_exec sys op :
  all_quiet sys → participant_op op →
  all_quiet (exec sys op) ∧ trace (exec sys op) = trace sys
  ∧ coordinator (exec sys op) = coordinator sys.
Proof.
  intros Hquiet Hop. destruct op as [props|k id|k id|k id]; [done|..]; simpl.
  - unfold host_register. destruct (instances sys !! k) as [i|] eqn:Hi; [|done].
    split; [|done]. intros k' i'. simpl.
    destruct (decide (k = k')) as [<-|].
    + rewrite lookup_insert_eq. intros [= <-]. by apply (Hquiet k i).
    + rewrite lookup_insert_ne by done. apply Hquiet.
  - unfold host_unregister. destruct (instances sys !! k) as [i|] eqn:Hi; [|done].
    split; [|done]. intros k' i'. simpl.
    destruct (decide (k = k')) as [<-|].
    + rewrite lookup_insert_eq. intros [= <-]. by apply (Hquiet k i).
    + rewrite lookup_insert_ne by done. apply Hquiet.
  - unfold host_reportDone. destruct (instances sys !! k) as [i|] eqn:Hi; [|done].
    unfold context_onExitComplete. rewrite (Hquiet k i Hi).
    assert (∀ b : bool, (if b then @None Callback else None) = None) as Hnone
      by by intros [].
    destruct (decide _); simpl; rewrite app_nil_r;
      (split; [|done]); intros k' i'; simpl;
      (destruct (decide (k = k')) as [<-|];
       [rewrite lookup_insert_eq; intros [= <-]; by apply (Hquiet k i)
       |rewrite lookup_insert_ne by done; apply Hquiet]).
Qed.

Lemma participant_run sys ops :
  all_quiet sys → Forall participant_op ops →
  trace (run ops sys) = trace sys ∧ coordinator (run ops sys) = coordinator sys.
Proof.
  intros Hquiet Hops.
  assert (all_quiet (run ops sys) ∧ trace (run ops sys) = trace sys
          ∧ coordinator (run ops sys) = coordinator sys) as (_ & ? & ?); [|done].
  induction ops as [|op ops IH] using rev_ind; [done|].
  apply Forall_app in Hops as [Hops [Hop _]%Forall_cons].
  destruct (IH Hops) as (Hq & Htr & Hc). rewrite run_snoc.
  destruct (participant_exec (run ops sys) op Hq Hop) as (? & -> & ->). done.
Qed.

(** C6. Two consecutive passes whose targets have the same keys, the exiting
    set being empty once the first has run: the exiting set is empty after
    the second pass, no node it returns carries a completion callback, and
    from the first pass on neither the second pass nor the reports of
    participants that follow it cause any call: no completion callback of a
    key, no request for re-evaluation, no global exit callback. *)
Theorem same_keys_nothing_exits
    (props1 props2 : AnimatePresenceProps) (sys : System) (ops : list Op) :
  reachable sys →
  (∀ k, k ∈ targetKeysOf props1 ↔ k ∈ targetKeysOf props2) →
  exitingSet (coordinator (host_pass props1 sys)) = [] →
  Forall participant_op ops →
  exitingSet (coordinator (host_pass props2 (host_pass props1 sys))) = []
  ∧ (∀ e, e ∈ (pass props2 (coordinator (host_pass props1 sys))).2 →
          node_callback e = None)
  ∧ since (host_pass props1 sys) (run ops (host_pass props2 (host_pass props1 sys)))
    = [].
Proof.
  intros Hreach Hkeys Hempty Hops.
  pose proof (host_pass_ok props1 sys (reachable_ok sys Hreach)) as Hok1.
  set (sys1 := host_pass props1 sys) in *.
  assert (isInitialRender (coordinator sys1) = false) as Hlater.
  { destruct (host_pass_fields props1 sys) as (cbs & evs & _ & Hc & _).
    unfold sys1. by rewrite Hc, onExits_isInitialRender, pass_isInitialRender. }
  assert (exitingOf props2 (coordinator sys1) = []) as Hnone.
  { apply markExiting_empty. intros k Hk. apply Hkeys.
    apply (host_pass_settled props1 sys k); [|done..].
    by destruct (reachable_ok sys Hreach). }
  pose proof (host_pass_all_quiet props2 sys1 Hok1 Hnone Hlater) as Hquiet.
  destruct (participant_run _ ops Hquiet Hops) as [Htr Hcoord].
  split_and!.
  - rewrite host_pass_none by done. simpl. by rewrite pass_exitingSet, Hlater.
  - intros e. rewrite pass_later, renderedOf_no_exits by done. simpl.
    by intros (c & -> & _)%list_elem_of_fmap.
  - apply since_spec. rewrite Htr, host_pass_none by done. simpl.
    by rewrite app_nil_r.
Qed.

(** Targets [a; b] and then [b; a] from the start, followed by a report of a
    participant under [a]. *)
Lemma same_keys_nothing_exits_ab :
  exitingSet (coordinator (host_pass (propsOf [el "b"; el "a"])
                             (host_pass (propsOf [el "a"; el "b"]) booted))) = []
  ∧ (∀ e, e ∈ (pass (propsOf [el "b"; el "a"])
                 (coordinator (host_pass (propsOf [el "a"; el "b"]) booted))).2 →
          node_callback e = None)
  ∧ since (host_pass (propsOf [el "a"; el "b"]) booted)
      (run [ReportDone "a" "r"]
         (host_pass (propsOf [el "b"; el "a"])
            (host_pass (propsOf [el "a"; el "b"]) booted)))
    = [].
Proof.
  apply (same_keys_nothing_exits (propsOf [el "a"; el "b"]) (propsOf [el "b"; el "a"])
           booted [ReportDone "a" "r"]).
  - by exists [].
  - intros k. change (k ∈ ["a"; "b"] ↔ k ∈ ["b"; "a"]).
    rewrite !elem_of_cons. tauto.
  - reflexivity.
  - repeat constructor.
Defined.

(** ** C9: exiting keys and the known-children table *)

(** C9, as the claim states it, fails. [b] and [x] are exiting, each with a
    participant running; the parent renders again with the same empty
    target, so the latest pass has its own exiting set, holding [b] and [x];
    the [PresenceChild] of [b] still has the callback of the earlier pass in
    its context. When the participant of [b] reports done, that callback
    removes [b] from the table and from the set of the earlier pass: the set
    of the latest pass keeps [b], which has no entry in the table any more,
    and no re-evaluation is requested since [x] is still exiting. *)
Lemma exiting_key_without_entry :
  reachable sys_b_done_late
  ∧ exitingSet (coordinator sys_b_done_late) = ["b"; "x"]
  ∧ allChildren (coordinator sys_b_done_late) !! "b" = None
  ∧ trace sys_b_done_late = [Fired (OnExit 1 "b")].
Proof.
  split; [by eexists|]. split_and!; compute_done.
Qed.

Lemma filter_none {A} (P : A → Prop) `{∀ x, Decision (P x)} (l : list A) :
  (∀ x, x ∈ l → ¬ P x) → filter P l = [].
Proof.
  intros Hl. destruct (filter P l) as [|x k] eqn:E; [done|].
  assert (x ∈ filter P l) as [HP Hx]%list_elem_of_filter by (rewrite E; left).
  by apply Hl in Hx.
Qed.

Lemma renderedOf_nodes props s e :
  table_ok (allChildren s) →
  e ∈ renderedOf props s →
  (∃ c, c ∈ onlyElements (props_children props)
        ∧ e = wrapPresent (props_mode props) c)
  ∨ (∃ key child, key ∈ exitingOf props s ∧ allChildren s !! key = Some child
                  ∧ e = exitingNode props s key child).
Proof.
  intros Htable (e0 & -> & He0)%list_elem_of_fmap.
  apply splicedOf_elem in He0 as [He0|(key & child & Hkey & Hchild & ->)].
  - left. exists e0. split; [done|]. by apply wrapUnlessExiting_target.
  - right. exists key, child. split_and!; [done..|].
    apply wrapUnlessExiting_exiting. by rewrite (Htable key child Hchild).
Qed.

Lemma getChildKey_exitingNode props s key child :
  getChildKey (exitingNode props s key child) = getChildKey child.
Proof. by apply getChildKey_of_key. Qed.

(** An exiting key has at most one node in what the pass returns. *)
Lemma renderedOf_count props s key :
  table_ok (allChildren s) →
  key ∉ targetKeysOf props →
  length (filter (λ e, getChildKey e = key) (renderedOf props s)) ≤ 1.
Proof.
  intros Htable Hkey. unfold renderedOf, splicedOf.
  set (step := spliceExitingKey _ _ _ _ _).
  set (wrap := wrapUnlessExiting _ _).
  set (Pk := λ e, getChildKey e = key).
  assert (∀ ex ctr, NoDup ex → ex ⊆ exitingOf props s →
            length (filter Pk (wrap <$> foldl step ctr ex))
            ≤ length (filter Pk (wrap <$> ctr))
              + (if decide (key ∈ ex) then 1 else 0)) as Hloop.
  { induction ex as [|k ex IH]; intros ctr Hnodup Hsub; simpl; [lia|].
    apply NoDup_cons in Hnodup as [Hk Hnodup].
    etrans; [apply IH; [done|set_solver]|].
    assert (length (filter Pk (wrap <$> step ctr k))
            ≤ length (filter Pk (wrap <$> ctr))
              + (if decide (k = key) then 1 else 0)) as Hstep.
    { unfold step, spliceExitingKey.
      destruct (decide (indexOf k (targetKeysOf props) ≠ (-1)%Z)) as [|_]; [lia|].
      destruct (allChildren s !! k) as [c|] eqn:Hc; [|lia].
      destruct (splice_insert_shape (indexOf k (presentKeysOf s))
                  (wrapExiting (OnExit (length (frames s)) k) (props_custom props)
                     (props_mode props) c) ctr) as [m ->].
      assert (length (filter Pk (wrap <$> ctr))
              = length (filter Pk (wrap <$> take m ctr))
                + length (filter Pk (wrap <$> drop m ctr))) as ->
        by by rewrite <- length_app, <- filter_app, <- fmap_app, take_drop.
      rewrite fmap_app, fmap_cons.
      pose proof (wrapUnlessExiting_exiting props s k c) as Hw.
      unfold exitingNode in Hw. unfold wrap at 2. rewrite Hw.
      2:{ rewrite (Htable k c Hc). set_solver. }
      rewrite filter_app, filter_cons, length_app.
      destruct (decide (Pk _)) as [HP|HP]; simpl.
      - unfold Pk in HP.
        rewrite (getChildKey_of_key _ (getChildKey c)), (Htable k c Hc) in HP by done.
        rewrite decide_True by done. lia.
      - lia. }
    destruct (decide (k = key)) as [->|Hne].
    - rewrite decide_False in * by done.
      rewrite decide_True by set_solver. lia.
    - destruct (decide (key ∈ ex)).
      + rewrite decide_True by set_solver. lia.
      + rewrite decide_False by set_solver. lia. }
  etrans; [apply Hloop; [apply markExiting_NoDup|done]|].
  assert (filter Pk (wrap <$> onlyElements (props_children props)) = []) as ->.
  { apply filter_none. intros e (c & -> & Hc)%list_elem_of_fmap.
    unfold wrap, Pk. rewrite wrapUnlessExiting_target, getChildKey_wrapPresent by done.
    intros <-. apply Hkey. apply list_elem_of_fmap. eauto. }
  simpl. case_decide; lia.
Qed.

Lemma mounted_ok : coord_ok mounted.
Proof.
  unfold coord_ok, mounted, committed, exitingSet, target_at, latest. simpl.
  split_and!; try (intros ? ?%elem_of_nil; done).
  - apply table_ok_empty.
  - by left.
  - intros _ ? ? ?%elem_of_nil. done.
Qed.

Lemma pass_target_at props s :
  target_at (latest (pass props s).1) (frames (pass props s).1)
  = onlyElements (props_children props).
Proof.
  rewrite pass_latest. unfold target_at. simpl.
  destruct (pass_frames props s) as (f & -> & <- & _).
  by rewrite frames_lookup_new.
Qed.

Lemma pass_presentChildren props s :
  presentChildren (pass props s).1 =
  if isInitialRender s then filteredChildrenOf (length (frames s))
  else renderedChildrenOf (length (frames s)).
Proof.
  destruct (isInitialRender s) eqn:Hi;
    [rewrite pass_first by done|rewrite pass_later by done]; done.
Qed.

Lemma pass_coord_ok props s : coord_ok s → coord_ok (pass props s).1.
Proof.
  intros (Htable & Hcommitted & _ & _ & _ & _).
  unfold coord_ok.
  rewrite pass_target_at, pass_allChildren, pass_exitingSet, pass_presentChildren,
    pass_latest, pass_length.
  assert (∀ c, c ∈ onlyElements (props_children props) →
            is_Some (updateChildLookup (onlyElements (props_children props))
                       (allChildren s) !! getChildKey c)) as Htarget.
  { intros c Hc. apply updateChildLookup_dom. left.
    apply list_elem_of_fmap. eauto. }
  assert (∀ k, is_Some (allChildren s !! k) →
            is_Some (updateChildLookup (onlyElements (props_children props))
                       (allChildren s) !! k)) as Hkept.
  { intros k Hk. apply updateChildLookup_dom. by right. }
  split_and!; [by apply table_ok_update| | |exact Htarget|right; lia|].
  - destruct (isInitialRender s) eqn:Hi.
    + rewrite pass_committed_first by done. done.
    + rewrite pass_committed_later by done.
      intros e He.
      destruct (renderedOf_nodes props s e Htable He)
        as [(c & Hc & ->)|(key & ch & Hkey & Hch & ->)].
      * rewrite getChildKey_wrapPresent. by apply Htarget.
      * rewrite getChildKey_exitingNode, (Htable key ch Hch). apply Hkept. eauto.
  - destruct (isInitialRender s) eqn:Hi; [by intros ? ?%elem_of_nil|].
    intros k [(e & -> & He)%list_elem_of_fmap _]%exitingOf_elem.
    by apply Hkept, Hcommitted.
  - destruct (isInitialRender s) eqn:Hi; [done|]. intros _ e cb.
    rewrite pass_committed_later by done. intros He.
    destruct (renderedOf_nodes props s e Htable He)
      as [(c & Hc & ->)|(key & ch & Hkey & Hch & ->)]; [done|].
    simpl. intros [= <-]. simpl.
    pose proof (Htable key ch Hch) as Hk.
    apply exitingOf_elem in Hkey as [_ Hkey].
    split_and!; [done|by rewrite Hk|done|by apply renderedOf_count].
Qed.

Lemma onExit_target_at cb s q :
  presentChildren s ≠ filteredChildrenOf q →
  target_at q (frames (onExit cb s).1) = target_at q (frames s).
Proof.
  intros Hne. destruct (decide (cb_pass cb < length (frames s))).
  - rewrite onExit_unfold by done. unfold target_at. cbn [fst frames].
    by rewrite array_at_set_ne, array_at_set_exiting.
  - by rewrite onExit_unissued by lia.
Qed.

Lemma onExit_committed cb s :
  cb_pass cb < length (frames s) →
  ref_pass (presentChildren s) < length (frames s) →
  committed (onExit cb s).1 =
  if decide (Set_delete (cb_key cb) (exiting_at (cb_pass cb) (frames s)) = [])
  then target_at (cb_pass cb) (frames (onExit cb s).1)
  else splice (findIndex (λ e, element_key e = Some (cb_key cb)) (committed s)) 1 []
         (committed s).
Proof.
  intros Hp Href. unfold committed at 1, target_at.
  rewrite onExit_unfold by done. cbn [fst frames presentChildren].
  destruct (decide _); [done|].
  by rewrite array_at_set_eq by by rewrite length_alter.
Qed.

(** Removing the only node of a key leaves no node of that key. *)
Lemma delete_only_node (l : list ReactElement) (k : string) (i : nat) x :
  l !! i = Some x → getChildKey x = k →
  length (filter (λ e, getChildKey e = k) l) ≤ 1 →
  ∀ e, e ∈ delete i l → getChildKey e ≠ k.
Proof.
  intros Hi Hx Hcount e He Hk.
  rewrite <- (take_drop_middle l i x Hi) in Hcount.
  rewrite filter_app, filter_cons, decide_True, length_app in Hcount by done.
  simpl in Hcount.
  rewrite delete_take_drop in He.
  assert (e ∈ filter (λ e, getChildKey e = k) (take i l)
          ∨ e ∈ filter (λ e, getChildKey e = k) (drop (S i) l)) as [Hin|Hin].
  { apply elem_of_app in He as [?|?]; [left|right]; by apply list_elem_of_filter. }
  - destruct (filter _ (take i l)); [by apply elem_of_nil in Hin|simpl in *; lia].
  - destruct (filter _ (drop (S i) l)); [by apply elem_of_nil in Hin|simpl in *; lia].
Qed.

Lemma exit_coord_ok cb s :
  coord_ok s →
  presentChildren s = renderedChildrenOf (latest s) →
  Some cb ∈ node_callback <$> committed s →
  coord_ok (onExit cb s).1.
Proof.
  intros (Htable & Hcomm & Hex & Htgt & Hfr & Hcb) Hptr
    (e & Hnc & He)%list_elem_of_fmap.
  destruct (Hcb Hptr e cb He (eq_sym Hnc)) as (Hpass & Hkey & Hnot & Hcount).
  assert (latest s < length (frames s)) as Hlatest.
  { destruct Hfr as [Hnil|?]; [|done]. exfalso.
    unfold committed in He. rewrite Hnil in He.
    destruct (presentChildren s); simpl in He; by apply elem_of_nil in He. }
  assert (cb_pass cb < length (frames s)) as Hissued by by rewrite Hpass.
  assert (ref_pass (presentChildren s) < length (frames s)) as Href
    by by rewrite Hptr.
  assert (presentChildren s ≠ filteredChildrenOf (latest s)) as Hother
    by by rewrite Hptr.
  set (k := cb_key cb) in *.
  destruct (findIndex_range (λ e, element_key e = Some k) (committed s))
    as [Hmiss|(i & Hi & _)].
  { apply findIndex_missing in Hmiss. rewrite Forall_forall in Hmiss.
    by destruct (Hmiss e He). }
  pose proof Hi as (x & Hx & Hxkey & _)%findIndex_found.
  pose proof (delete_only_node _ k i x Hx (getChildKey_of_key _ _ Hxkey) Hcount)
    as Houtside.
  assert (∀ k', is_Some (allChildren s !! k') → k' ≠ k →
            is_Some (delete k (allChildren s) !! k')) as Hkept.
  { intros k' Hk' Hne. by rewrite lookup_delete_ne. }
  assert (target_at (latest s) (frames (onExit cb s).1) = target_at (latest s) (frames s))
    as Htarget' by by apply onExit_target_at.
  assert (∀ c, c ∈ target_at (latest s) (frames s) →
            is_Some (delete k (allChildren s) !! getChildKey c)) as Htgt'.
  { intros c Hc. apply Hkept; [by apply Htgt|].
    intros Heq. apply Hnot. apply list_elem_of_fmap. eauto. }
  unfold coord_ok, exitingSet, latest.
  rewrite onExit_length, onExit_allChildren, onExit_committed by done.
  fold (latest s). rewrite Htarget'.
  replace (exiting_at (latest s) (frames (onExit cb s).1))
    with (Set_delete k (exiting_at (cb_pass cb) (frames s))).
  2:{ by rewrite <- Hpass, onExit_exiting_at, decide_True. }
  fold k. rewrite Hpass, Htarget', Hi, splice_remove.
  assert (presentChildren (onExit cb s).1
          = if decide (Set_delete k (exiting_at (latest s) (frames s)) = [])
            then filteredChildrenOf (latest s) else presentChildren s) as ->.
  { rewrite onExit_unfold by done. simpl. by rewrite Hpass. }
  destruct (decide (Set_delete k (exiting_at (latest s) (frames s)) = []))
    as [Hdrained|Hleft].
  { split_and!; [by apply table_ok_delete|done| |done|by right|done].
    rewrite Hdrained. by intros ? ?%elem_of_nil. }
  split_and!.
  - by apply table_ok_delete.
  - intros e' He'. apply Hkept.
    + apply Hcomm. eapply elem_of_sublist; [exact He'|apply sublist_delete].
    + by apply Houtside.
  - intros k' [Hne Hk']%Set_delete_elem. apply Hkept; [|done]. by apply Hex.
  - done.
  - by right.
  - intros _ e' cb' He' Hcb'.
    assert (e' ∈ committed s) as He'' 
      by (eapply elem_of_sublist; [exact He'|apply sublist_delete]).
    destruct (Hcb Hptr e' cb' He'' Hcb') as (? & ? & ? & Hcount').
    split_and!; [done..|].
    etrans; [|exact Hcount'].
    rewrite delete_take_drop.
    rewrite <- (take_drop_middle (committed s) i x Hx) at 3.
    rewrite !filter_app, !length_app, filter_cons.
    destruct (decide _); simpl; lia.
Qed.

Lemma committed_run_ok s : committed_run s → coord_ok s.
Proof.
  induction 1 as [|props s _ IH|cb s _ IH Hptr Hin].
  - apply mounted_ok.
  - by apply pass_coord_ok.
  - by apply exit_coord_ok.
Qed.

(** C9, amended. As long as every completion callback that runs is carried
    by a node of the sequence committed by the latest pass, every key in
    the exiting set of the latest pass has an entry in the known-children
    table, at every point between passes and callbacks. (A callback kept
    from an earlier pass removes its key from the table and from the set of
    that earlier pass only.) *)
Theorem exiting_keys_are_known (s : Coordinator) (k : string) :
  committed_run s →
  k ∈ exitingSet s →
  is_Some (allChildren s !! k).
Proof.
  intros Hrun Hk. destruct (committed_run_ok s Hrun) as (_ & _ & Hex & _).
  by apply Hex.
Qed.

(** Scenario A: [b] is exiting and still known. *)
Lemma exiting_keys_are_known_scenarioA : is_Some (allChildren exiting_b !! "b").
Proof.
  apply (exiting_keys_are_known exiting_b "b").
  - apply committed_run_pass, committed_run_pass, committed_run_mounted.
  - compute_done.
Defined.

(** * Further properties of the code *)

(** ** The children a pass looks at *)

(** X1: [onlyElements] returns exactly the valid elements among the
    children, in the order they were handed in: text and null children are
    dropped, no element is dropped, duplicated or moved; a list of elements
    comes back as it is. *)
Theorem onlyElements_keeps_the_elements (children : list ReactNode)
    (cs : list ReactElement) :
  NodeElement <$> onlyElements children = filter isValidElement children
  ∧ onlyElements (NodeElement <$> cs) = cs.
Proof.
  split.
  - induction children as [|[e| |] children IH]; [done|..].
    + change (onlyElements (NodeElement e :: children))
        with (e :: onlyElements children).
      rewrite fmap_cons, IH, filter_cons_True; done.
    + change (onlyElements (NodeText s :: children)) with (onlyElements children).
      rewrite IH, filter_cons_False; [done|]. by intros [].
    + change (onlyElements (NodeNull :: children)) with (onlyElements children).
      rewrite IH, filter_cons_False; [done|]. by intros [].
  - induction cs as [|c cs IH]; [done|].
    rewrite fmap_cons.
    change (onlyElements (NodeElement c :: (NodeElement <$> cs)))
      with (c :: onlyElements (NodeElement <$> cs)).
    by rewrite IH.
Qed.

(** ** Mounting *)

Lemma omap_none {A B} (f : A → option B) (l : list A) :
  (∀ x, x ∈ l → f x = None) → omap f l = [].
Proof.
  induction l as [|x l IH]; intros Hf; [done|]. simpl.
  rewrite (Hf x) by set_solver. apply IH. intros y Hy. apply Hf. set_solver.
Qed.

Lemma PresenceChild_render_isPresent isPresent onExitComplete initial custom prev :
  ctx_isPresent (PresenceChild_render isPresent onExitComplete initial custom prev).1
  = isPresent.
Proof.
  unfold PresenceChild_render. destruct prev as [i|]; [|done].
  by case_decide.
Qed.

(** X2: the initial pass returns one present wrapper per element child, in
    the order of the children; it calls nothing (no completion callback, no
    request of a re-evaluation, no global exit callback), although no
    participant has registered yet; it commits the children as they are,
    with an empty exiting set, and leaves one [PresenceChild] per target
    key, each present. *)
Theorem mounting_fires_nothing (props : AnimatePresenceProps) (sys : System) :
  isInitialRender (coordinator sys) = true →
  let sys' := host_pass props sys in
  (pass props (coordinator sys)).2
  = wrapInitial (props_initial props) (props_mode props)
      <$> onlyElements (props_children props)
  ∧ trace sys' = trace sys
  ∧ committed (coordinator sys') = onlyElements (props_children props)
  ∧ exitingSet (coordinator sys') = []
  ∧ (∀ k, is_Some (instances sys' !! k) ↔ k ∈ targetKeysOf props)
  ∧ (∀ k i, instances sys' !! k = Some i → ctx_isPresent i = true).
Proof.
  intros Hinit sys'.
  assert ((pass props (coordinator sys)).2
          = wrapInitial (props_initial props) (props_mode props)
              <$> onlyElements (props_children props)) as Hout
    by by rewrite pass_first.
  assert (∀ e, e ∈ (pass props (coordinator sys)).2 →
            ∃ c, c ∈ onlyElements (props_children props)
                 ∧ e = wrapInitial (props_initial props) (props_mode props) c)
    as Hnodes.
  { intros e. rewrite Hout. intros (c & -> & Hc)%list_elem_of_fmap. eauto. }
  set (r := reconcile (instances sys) (pass props (coordinator sys)).2).
  assert (omap (effect_callback r.1) r.2 = []) as Hquiet.
  { apply omap_none. intros [[k isPresent] cb] Heff.
    apply reconcile_effect in Heff as (initial & custom & mode & child & He & _).
    apply Hnodes in He as (c & _ & He). unfold wrapInitial in He.
    injection He as ? ? ? ? ? ? ?; subst.
    unfold effect_callback. destruct (r.1 !! _); reflexivity. }
  assert (sys' = MkSystem (pass props (coordinator sys)).1 r.1 (trace sys)) as ->.
  { unfold sys'. rewrite host_pass_unfold. cbn zeta. fold r.
    rewrite (runEffects_none _ _ _ Hquiet). cbn [fst snd].
    by rewrite app_nil_r. }
  cbn [coordinator instances trace].
  split_and!; [done|done|by apply pass_committed_first| |..].
  - by rewrite pass_exitingSet, Hinit.
  - intros k. split.
    + intros [i Hi]. apply reconcile_instance in Hi
        as (isPresent & cb & initial & custom & mode & child & He & _).
      apply Hnodes in He as (c & Hc & He). unfold wrapInitial in He.
      injection He as ? ? ? ? ? ? ?; subst. apply list_elem_of_fmap. eauto.
    + intros (c & -> & Hc)%list_elem_of_fmap.
      eapply reconcile_mounts. rewrite Hout. apply list_elem_of_fmap.
      eexists. split; [|done]. reflexivity.
  - intros k i Hi. apply reconcile_instance in Hi
      as (isPresent & cb & initial & custom & mode & child & He & ->).
    apply Hnodes in He as (c & _ & He). unfold wrapInitial in He.
    injection He as ? ? ? ? ? ? ?; subst.
    apply PresenceChild_render_isPresent.
Qed.

Lemma mounting_fires_nothing_abc :
  let props := propsOf [el "a"; el "b"; el "c"] in
  let sys' := host_pass props booted in
  (pass props (coordinator booted)).2
  = wrapInitial (props_initial props) (props_mode props)
      <$> onlyElements (props_children props)
  ∧ trace sys' = trace booted
  ∧ committed (coordinator sys') = onlyElements (props_children props)
  ∧ exitingSet (coordinator sys') = []
  ∧ (∀ k, is_Some (instances sys' !! k) ↔ k ∈ targetKeysOf props)
  ∧ (∀ k i, instances sys' !! k = Some i → ctx_isPresent i = true).
Proof. apply (mounting_fires_nothing (propsOf [el "a"; el "b"; el "c"]) booted). reflexivity. Defined.

(** ** Teardown *)

Lemma onExit_unmounted cb s : isMounted s = false → (onExit cb s).2 = [].
Proof.
  intros Hm. unfold onExit. destruct (frames s !! cb_pass cb); [|done].
  cbn zeta. case_decide; [|done]. by rewrite Hm.
Qed.

Lemma onExits_isMounted cbs s : isMounted (onExits cbs s).1 = isMounted s.
Proof.
  induction cbs as [|cb cbs IH] using rev_ind; [done|].
  rewrite onExits_snoc. cbn [fst].
  destruct (decide (cb_pass cb < length (frames (onExits cbs s).1))).
  - by rewrite onExit_isMounted.
  - by rewrite onExit_unissued by lia.
Qed.

Lemma onExits_unmounted cbs s : isMounted s = false → (onExits cbs s).2 = [].
Proof.
  intros Hm. induction cbs as [|cb cbs IH] using rev_ind; [done|].
  rewrite onExits_snoc. cbn [snd]. rewrite IH.
  apply onExit_unmounted. by rewrite onExits_isMounted.
Qed.

Lemma onExits_allChildren_empty cbs s :
  allChildren s = ∅ → allChildren (onExits cbs s).1 = ∅.
Proof.
  intros He. apply map_empty. intros k.
  destruct (allChildren (onExits cbs s).1 !! k) as [c|] eqn:Hk; [|done].
  apply onExits_table in Hk. by rewrite He, lookup_empty in Hk.
Qed.

(** X3: after the teardown of line 110, completion callbacks that still
    arrive, however many and of whichever pass, request no re-evaluation
    and call no global exit callback; the table stays empty; and the next
    invocation is treated as an initial one again: it returns one present
    wrapper per child and no exiting node. *)
Theorem teardown_silences_callbacks (p : nat) (s : Coordinator)
    (cbs : list Callback) (props : AnimatePresenceProps) :
  let late := onExits cbs (unmountEffect p s) in
  late.2 = []
  ∧ allChildren late.1 = ∅
  ∧ (pass props late.1).2
    = wrapInitial (props_initial props) (props_mode props)
        <$> onlyElements (props_children props)
  ∧ exitingSet (pass props late.1).1 = [].
Proof.
  intros late.
  assert (isInitialRender late.1 = true) as Hinit
    by by unfold late; rewrite onExits_isInitialRender.
  split_and!.
  - by apply onExits_unmounted.
  - by apply onExits_allChildren_empty.
  - by rewrite pass_first.
  - by rewrite pass_exitingSet, Hinit.
Qed.

(** ** The diff of a pass *)

Lemma markExiting_sublist presentKeys targetKeys :
  markExiting presentKeys targetKeys `sublist_of` presentKeys.
Proof.
  induction presentKeys as [|key presentKeys IH] using rev_ind; [done|].
  rewrite markExiting_snoc. case_decide.
  - etrans; [apply IH|]. by apply sublist_inserts_r.
  - unfold Set_add. case_decide.
    + etrans; [apply IH|]. by apply sublist_inserts_r.
    + by apply sublist_app.
Qed.

(** X4: the exiting set a pass leaves holds exactly the keys of the
    committed sequence that the target lacks, each once and in the order
    of the committed sequence; the initial pass leaves it empty. *)
Theorem exiting_set_is_committed_minus_target
    (props : AnimatePresenceProps) (s : Coordinator) :
  (∀ k, k ∈ exitingSet (pass props s).1 ↔
        isInitialRender s = false ∧ k ∈ presentKeysOf s ∧ (k ∉ targetKeysOf props))
  ∧ NoDup (exitingSet (pass props s).1)
  ∧ exitingSet (pass props s).1 `sublist_of` presentKeysOf s.
Proof.
  rewrite pass_exitingSet. destruct (isInitialRender s).
  - split_and!; [|constructor|apply sublist_nil_l].
    intros k. split; [by intros ?%elem_of_nil|by intros [? _]].
  - split_and!.
    + intros k. rewrite exitingOf_elem. naive_solver.
    + apply markExiting_NoDup.
    + apply markExiting_sublist.
Qed.

(** ** The registry of participants *)

(** X5: a participant that registers and later unregisters leaves no entry
    behind, whether or not it has reported done in between and whatever
    the registry held for its id before; registering again after a report
    marks the id as not done again; the memoised context is not touched. *)
Theorem unregister_forgets_participant (childId : string) (i : Instance) :
  presenceChildren (unregister childId (context_register childId i))
  = delete childId (presenceChildren i)
  ∧ presenceChildren
      (unregister childId
         (context_onExitComplete childId (context_register childId i)).1)
    = delete childId (presenceChildren i)
  ∧ presenceChildren (context_register childId (context_onExitComplete childId i).1)
    = <[childId := false]> (presenceChildren i)
  ∧ ctx_onExitComplete (unregister childId (context_register childId i))
    = ctx_onExitComplete i.
Proof.
  split_and!; cbn.
  - apply delete_insert_eq.
  - by rewrite insert_insert_eq, delete_insert_eq.
  - apply insert_insert_eq.
  - done.
Qed.

Lemma reports_snoc ids childId i :
  reports (ids ++ [childId]) i
  = ((context_onExitComplete childId (reports ids i).1).1,
     (reports ids i).2 ++ [(context_onExitComplete childId (reports ids i).1).2]).
Proof. unfold reports. by rewrite foldl_snoc. Qed.

Lemma reports_length ids i : length (reports ids i).2 = length ids.
Proof.
  induction ids as [|childId ids IH] using rev_ind; [done|].
  rewrite reports_snoc. cbn [snd]. rewrite !length_app, IH. done.
Qed.

Lemma reports_context ids i :
  ctx_onExitComplete (reports ids i).1 = ctx_onExitComplete i.
Proof.
  induction ids as [|childId ids IH] using rev_ind; [done|].
  by rewrite reports_snoc.
Qed.

Lemma reports_registry ids i id :
  presenceChildren (reports ids i).1 !! id
  = if decide (id ∈ ids) then Some true else presenceChildren i !! id.
Proof.
  induction ids as [|childId ids IH] using rev_ind; [done|].
  rewrite reports_snoc. cbn [fst context_onExitComplete set_presenceChildren presenceChildren].
  destruct (decide (id = childId)) as [->|Hne].
  - rewrite lookup_insert_eq, decide_True; [done|set_solver].
  - rewrite lookup_insert_ne, IH by done.
    apply decide_ext. set_solver.
Qed.

(** X6: when participants report done one after the other, a report calls
    the completion callback exactly when, with it, every id the registry
    held as not done has reported; the order of the reports does not
    matter, ids that never registered count as reports like the others,
    and every further report calls the callback again. *)
Theorem reports_fire_when_all_done
    (ids : list string) (i : Instance) (n : nat) (childId : string) :
  ids !! n = Some childId →
  (reports ids i).2 !! n
  = Some (if decide (map_Forall (λ other done, done = true ∨ other ∈ take (S n) ids)
                       (presenceChildren i))
          then ctx_onExitComplete i else None).
Proof.
  revert n childId. induction ids as [|x ids IH] using rev_ind; [done|].
  intros n childId Hn. rewrite reports_snoc. cbn [snd].
  destruct (decide (n < length ids)) as [Hlt|Hge].
  - rewrite lookup_app_l in Hn by done.
    rewrite lookup_app_l by by rewrite reports_length.
    rewrite (IH n childId Hn), take_app_le by lia. done.
  - assert (n = length ids) as ->.
    { apply lookup_lt_Some in Hn. rewrite length_app in Hn. simpl in Hn. lia. }
    rewrite <- (reports_length ids i) at 1.
    rewrite list_lookup_middle by done.
    rewrite context_onExitComplete_fires, reports_context. f_equal.
    rewrite take_ge by (rewrite length_app; simpl; lia).
    apply decide_ext. split.
    + intros Hall other done Hother.
      destruct (decide (other ∈ ids ++ [x])) as [|Hnot]; [by right|left].
      apply (Hall other). rewrite lookup_insert_ne by set_solver.
      rewrite reports_registry, decide_False by set_solver. done.
    + intros Hall other done.
      destruct (decide (other = x)) as [->|Hne].
      { rewrite lookup_insert_eq. congruence. }
      rewrite lookup_insert_ne, reports_registry by done.
      case_decide; [congruence|]. intros Hother.
      destruct (Hall other done Hother) as [|?]; [done|set_solver].
Qed.

Lemma reports_fire_when_all_done_pair :
  let i := MkInstance {["q" := false; "r" := false]} false (Some (OnExit 1 "b"))
             None None in
  (reports ["r"; "q"; "r"] i).2 !! 1
  = Some (if decide (map_Forall (λ other done,
                          done = true ∨ other ∈ take 2 ["r"; "q"; "r"])
                       (presenceChildren i))
          then ctx_onExitComplete i else None).
Proof.
  apply (reports_fire_when_all_done ["r"; "q"; "r"]
           (MkInstance {["q" := false; "r" := false]} false (Some (OnExit 1 "b"))
              None None) 1 "q").
  reflexivity.
Defined.

(** ** What a pass of the host calls *)

(** The events of the effects of a pass are the calls of the completion
    callbacks and what these callbacks do in turn. *)
Lemma runEffects_events insts effs s e :
  e ∈ (runEffects insts effs s).2 →
  (∃ cb, e = Fired cb) ∨ e ∈ (onExits (omap (effect_callback insts) effs) s).2.
Proof.
  revert e. induction effs as [|eff effs IH] using rev_ind; intros e.
  { by intros ?%elem_of_nil. }
  rewrite runEffects_snoc, omap_app. cbn zeta. cbn [snd].
  destruct (runEffects_onExits insts effs s) as [Hstate _].
  rewrite elem_of_app. intros [He|He].
  - destruct (IH e He) as [?|Hin]; [by left|right].
    simpl. destruct (effect_callback insts eff) as [cb|].
    + rewrite onExits_snoc. cbn [snd]. apply elem_of_app. by left.
    + by rewrite app_nil_r.
  - simpl. destruct (effect_callback insts eff) as [cb|].
    + unfold fire in He. destruct (onExit cb _) as [s' evs] eqn:Hexit.
      cbn [snd] in He. apply elem_of_cons in He as [->|He]; [left; eauto|right].
      rewrite onExits_snoc. cbn [snd]. apply elem_of_app. right.
      by rewrite <- Hstate, Hexit.
    + by apply elem_of_nil in He.
Qed.

Lemma host_pass_events props sys e :
  e ∈ since sys (host_pass props sys) →
  (∃ cb, e = Fired cb)
  ∨ e ∈ (onExits (fired (since sys (host_pass props sys)))
           (pass props (coordinator sys)).1).2.
Proof.
  assert (trace (host_pass props sys)
          = trace sys
            ++ (runEffects (reconcile (instances sys) (pass props (coordinator sys)).2).1
                  (reconcile (instances sys) (pass props (coordinator sys)).2).2
                  (pass props (coordinator sys)).1).2) as Htr
    by by rewrite host_pass_unfold.
  rewrite (since_spec _ _ _ Htr).
  destruct (runEffects_onExits
              (reconcile (instances sys) (pass props (coordinator sys)).2).1
              (reconcile (instances sys) (pass props (coordinator sys)).2).2
              (pass props (coordinator sys)).1) as [_ ->].
  apply runEffects_events.
Qed.

(** ** Reports and re-evaluations *)

(** X8: while a key is present, the reports of its participants stay
    inside its [PresenceChild]: the registry records them, but no
    completion callback is called and the coordinator is left as it is. *)
Theorem report_while_present_stays_local
    (sys : System) (k childId : string) (i : Instance) :
  reachable sys →
  instances sys !! k = Some i →
  ctx_isPresent i = true →
  coordinator (host_reportDone k childId sys) = coordinator sys
  ∧ trace (host_reportDone k childId sys) = trace sys
  ∧ instances (host_reportDone k childId sys)
    = <[k := set_presenceChildren (<[childId := true]> (presenceChildren i)) i]>
        (instances sys).
Proof.
  intros [_ Hinst]%reachable_ok Hi Hpres.
  assert (ctx_onExitComplete i = None) as Hnone.
  { destruct (ctx_onExitComplete i) as [cb|] eqn:Hcb; [|done].
    destruct (Hinst k i Hi) as [_ Hcbs]. destruct (Hcbs cb Hcb) as [Hexit _].
    congruence. }
  unfold host_reportDone. rewrite Hi.
  unfold context_onExitComplete. rewrite Hnone.
  destruct (decide _); cbn; by rewrite app_nil_r.
Qed.

Lemma report_while_present_stays_local_b :
  let i := MkInstance ∅ true None None None in
  coordinator (host_reportDone "b" "r" sys_abc) = coordinator sys_abc
  ∧ trace (host_reportDone "b" "r" sys_abc) = trace sys_abc
  ∧ instances (host_reportDone "b" "r" sys_abc)
    = <["b" := set_presenceChildren (<["r" := true]> (presenceChildren i)) i]>
        (instances sys_abc).
Proof.
  apply (report_while_present_stays_local sys_abc "b" "r"
           (MkInstance ∅ true None None None)).
  - exists [Pass (propsOf [el "a"; el "b"; el "c"])]. reflexivity.
  - reflexivity.
  - reflexivity.
Defined.

(** X9: a [PresenceChild] whose [isPresent] is the same as at its previous
    invocation keeps its registry and its memoised context through the
    pass, whatever props the pass hands it: the reports recorded so far are
    not lost, and a key that stays exiting keeps the completion callback of
    the pass that made it exit. *)
Theorem unchanged_presence_keeps_context
    (props : AnimatePresenceProps) (sys : System) (k : string) (i i' : Instance) :
  instances sys !! k = Some i →
  instances (host_pass props sys) !! k = Some i' →
  ctx_isPresent i' = ctx_isPresent i →
  i' = i.
Proof.
  intros Hi Hi' Hsame.
  destruct (host_pass_fields props sys) as (? & ? & _ & _ & Hinsts & _).
  rewrite Hinsts in Hi'.
  apply reconcile_instance in Hi' as (ip & cbo & ini & cus & m & ch & _ & ->).
  rewrite PresenceChild_render_isPresent in Hsame. subst ip.
  rewrite Hi. by rewrite PresenceChild_render_same.
Qed.

Lemma unchanged_presence_keeps_context_b :
  let i := MkInstance {["r" := false]} false (Some (OnExit 1 "b")) None None in
  instances sys_exiting_b !! "b" = Some i
  ∧ instances (host_pass (propsOf [el "a"]) sys_exiting_b) !! "b" = Some i
  ∧ i = i.
Proof.
  split_and!; [reflexivity..|].
  apply (unchanged_presence_keeps_context (propsOf [el "a"]) sys_exiting_b "b");
    reflexivity.
Defined.

(** ** What completion callbacks and passes change *)

(** X10: completion callbacks only remove. Whatever callbacks run, in
    whatever order and however often, the known-children table gains no
    entry and changes none, no exiting set gains a key, and every array the
    component keeps (the target and the returned sequence of every pass) is
    a subsequence of what it was; no pass is added. *)
Theorem completion_callbacks_only_remove (cbs : list Callback) (s : Coordinator) :
  let s' := (onExits cbs s).1 in
  (∀ k c, allChildren s' !! k = Some c → allChildren s !! k = Some c)
  ∧ (∀ p k, k ∈ exiting_at p (frames s') → k ∈ exiting_at p (frames s))
  ∧ (∀ r, array_at r (frames s') `sublist_of` array_at r (frames s))
  ∧ length (frames s') = length (frames s).
Proof.
  split_and!.
  - intros k c. apply onExits_table.
  - intros p k. apply onExits_exiting_at.
  - intros r. apply onExits_array_sublist.
  - apply onExits_length.
Qed.

(** X11: a pass records every child of its target in the known-children
    table under the child's key, the last one when several children have
    the same key, and leaves the entries of all other keys as they were:
    the descriptor of a key that has left the target stays the one of the
    last pass that had it. *)
Theorem pass_records_target_children
    (props : AnimatePresenceProps) (s : Coordinator) (k : string) :
  allChildren (pass props s).1 !! k
  = match last (filter (λ c, getChildKey c = k) (onlyElements (props_children props))) with
    | Some c => Some c
    | None => allChildren s !! k
    end
  ∧ ((k ∉ targetKeysOf props) →
     allChildren (pass props s).1 !! k = allChildren s !! k).
Proof.
  rewrite pass_allChildren, updateChildLookup_lookup. split; [done|].
  intros Hk.
  rewrite (filter_none (λ c, getChildKey c = k)); [done|].
  intros c Hc <-. apply Hk. apply list_elem_of_fmap. eauto.
Qed.

Lemma pass_records_target_children_b :
  allChildren (pass (propsOf [el "a"; el "c"]) committed_abc).1 !! "b"
  = allChildren committed_abc !! "b".
Proof.
  apply (pass_records_target_children (propsOf [el "a"; el "c"]) committed_abc "b").
  compute_done.
Defined.

(** X12: every node a pass returns is a [PresenceChild] keyed by the key of
    the child it wraps and given the [mode] of the pass. A present node
    wraps a child of the target and carries no completion callback and no
    [custom]; its [initial] is [false] only in the initial pass and only if
    the [initial] prop is [false]. An exiting node is returned by a later
    pass only: it wraps the descriptor the table holds for a key of the
    exiting set, and carries the [custom] of the pass and the completion
    callback created by the pass for that key. *)
Theorem returned_nodes_are_presence_wrappers
    (props : AnimatePresenceProps) (sys : System) (e : ReactElement) :
  reachable sys →
  e ∈ (pass props (coordinator sys)).2 →
  ∃ child,
    (child ∈ onlyElements (props_children props)
     ∧ e = PresenceChild (Some (getChildKey child)) true None
             (if isInitialRender (coordinator sys) && negb (props_initial props)
              then Some false else None)
             None (props_mode props) child)
    ∨ (isInitialRender (coordinator sys) = false
       ∧ getChildKey child ∈ exitingSet (pass props (coordinator sys)).1
       ∧ allChildren (coordinator sys) !! getChildKey child = Some child
       ∧ e = PresenceChild (Some (getChildKey child)) false
               (Some (OnExit (length (frames (coordinator sys))) (getChildKey child)))
               None (props_custom props) (props_mode props) child).
Proof.
  intros [Htable _]%reachable_ok He.
  set (s := coordinator sys) in *.
  destruct (isInitialRender s) eqn:Hinit.
  - rewrite pass_first in He by done. cbn [snd] in He.
    apply list_elem_of_fmap in He as (c & -> & Hc).
    exists c. left. split; [done|]. unfold wrapInitial. cbn [andb].
    by destruct (props_initial props).
  - rewrite pass_later in He by done. cbn [snd] in He.
    destruct (renderedOf_nodes props s e Htable He)
      as [(c & Hc & ->)|(key & child & Hkey & Hchild & ->)].
    + exists c. by left.
    + exists child. right. rewrite pass_exitingSet, Hinit.
      unfold exitingNode, wrapExiting.
      rewrite (Htable key child Hchild). by split_and!.
Qed.

Lemma returned_nodes_are_presence_wrappers_scenarioA :
  let props := propsOf [el "a"; el "c"] in
  let e := PresenceChild (Some "b") false (Some (OnExit 1 "b")) None None sync (el "b") in
  ∃ child,
    (child ∈ onlyElements (props_children props)
     ∧ e = PresenceChild (Some (getChildKey child)) true None
             (if isInitialRender (coordinator sys_abc) && negb (props_initial props)
              then Some false else None)
             None (props_mode props) child)
    ∨ (isInitialRender (coordinator sys_abc) = false
       ∧ getChildKey child ∈ exitingSet (pass props (coordinator sys_abc)).1
       ∧ allChildren (coordinator sys_abc) !! getChildKey child = Some child
       ∧ e = PresenceChild (Some (getChildKey child)) false
               (Some (OnExit (length (frames (coordinator sys_abc))) (getChildKey child)))
               None (props_custom props) (props_mode props) child).
Proof.
  apply (returned_nodes_are_presence_wrappers (propsOf [el "a"; el "c"]) sys_abc).
  - exists [Pass (propsOf [el "a"; el "b"; el "c"])]. reflexivity.
  - compute_done.
Defined.

(** ** The calls that leave the component *)

Lemma bursts_head evs :
  bursts evs = true → evs = [] ∨ ∃ cb evs', evs = Fired cb :: evs'.
Proof. destruct evs as [|[| |cb] evs]; [by left|done|done|right; eauto]. Qed.

Lemma bursts_app evs1 evs2 :
  bursts evs1 = true → bursts evs2 = true → bursts (evs1 ++ evs2) = true.
Proof.
  intros H1 H2. remember (length evs1) as n eqn:Hn. revert evs1 Hn H1.
  induction n as [n IH] using lt_wf_ind. intros evs1 -> H1.
  destruct evs1 as [|[| |cb] evs1]; [done|done|done|].
  destruct evs1 as [|[| |cb'] evs1].
  - destruct (bursts_head _ H2) as [->|(cb' & evs' & ->)]; [done|exact H2].
  - destruct evs1 as [|[|g|cb'] evs1].
    + destruct (bursts_head _ H2) as [->|(cb' & evs' & ->)]; [done|exact H2].
    + done.
    + change (bursts (evs1 ++ evs2) = true).
      apply (IH (length evs1)); [simpl; lia|done|exact H1].
    + change (bursts ((Fired cb' :: evs1) ++ evs2) = true).
      apply (IH (length (Fired cb' :: evs1))); [simpl; lia|done|exact H1].
  - done.
  - change (bursts ((Fired cb' :: evs1) ++ evs2) = true).
    apply (IH (length (Fired cb' :: evs1))); [simpl; lia|done|exact H1].
Qed.

Lemma fire_bursts cbo s : bursts (fire cbo s).2 = true.
Proof.
  destruct cbo as [cb|]; [|done]. unfold fire.
  destruct (onExit cb s) as [s' evs] eqn:Hexit. cbn [snd].
  assert (evs = (onExit cb s).2) as -> by by rewrite Hexit.
  unfold onExit. destruct (frames s !! cb_pass cb) as [f|]; [|done].
  cbn zeta. case_decide; [|done].
  destruct (isMounted s); [|done].
  by destruct (onExitCompleteProp f).
Qed.

Lemma runEffects_bursts insts effs s : bursts (runEffects insts effs s).2 = true.
Proof.
  induction effs as [|eff effs IH] using rev_ind; [done|].
  rewrite runEffects_snoc. cbn zeta. cbn [snd].
  apply bursts_app; [done|apply fire_bursts].
Qed.

Lemma exec_bursts sys op : bursts (trace sys) = true → bursts (trace (exec sys op)) = true.
Proof.
  intros Hsys. destruct op as [props|k childId|k childId|k childId]; simpl.
  - rewrite host_pass_unfold. cbn zeta. cbn [trace].
    apply bursts_app; [done|apply runEffects_bursts].
  - unfold host_register. by destruct (instances sys !! k).
  - unfold host_unregister. by destruct (instances sys !! k).
  - unfold host_reportDone. destruct (instances sys !! k) as [i|]; [|done].
    destruct (context_onExitComplete childId i) as [i' cb].
    pose proof (fire_bursts cb (coordinator sys)) as Hfire.
    destruct (fire cb (coordinator sys)) as [s' evs]. cbn [trace].
    by apply bursts_app.
Qed.

(** X13: the component calls out in bursts only. In the events of every
    run of the host, a re-evaluation is requested only directly after the
    call of a completion callback, and the global exit callback is called
    only directly after the request of a re-evaluation: mounting,
    registering, unregistering and passes in which no exit completes call
    neither. *)
Theorem calls_come_in_bursts (sys : System) :
  reachable sys → bursts (trace sys) = true.
Proof.
  intros [ops ->]. induction ops as [|op ops IH] using rev_ind; [done|].
  rewrite run_snoc. by apply exec_bursts.
Qed.

Lemma calls_come_in_bursts_twice : bursts (trace sys_done_twice) = true.
Proof.
  apply (calls_come_in_bursts sys_done_twice).
  exists [Pass (propsOf [el "a"; el "b"; el "c"]); Register "b" "r";
          Pass (propsOf [el "a"; el "c"]); ReportDone "b" "r"; ReportDone "b" "r"].
  reflexivity.
Defined.

(** ** Distinct keys *)

Section counting.
Context {A : Type} (f : A → string).
Implicit Types l : list A.

Lemma count_NoDup l :
  (∀ k, length (filter (λ x, f x = k) l) ≤ 1) → NoDup (f <$> l).
Proof.
  induction l as [|x l IH]; intros Hcount; [constructor|].
  rewrite fmap_cons. apply NoDup_cons. split.
  - intros (y & Hy & Hin)%list_elem_of_fmap.
    specialize (Hcount (f x)). rewrite filter_cons_True in Hcount by done.
    assert (y ∈ filter (λ x0, f x0 = f x) l) as Hyin
      by by apply list_elem_of_filter.
    destruct (filter (λ x0, f x0 = f x) l); [by apply elem_of_nil in Hyin|].
    simpl in Hcount. lia.
  - apply IH. intros k. specialize (Hcount k).
    rewrite filter_cons in Hcount. destruct (decide (f x = k)); simpl in Hcount; lia.
Qed.

Lemma NoDup_count l k :
  NoDup (f <$> l) → length (filter (λ x, f x = k) l) ≤ 1.
Proof.
  induction l as [|x l IH]; [simpl; lia|].
  rewrite fmap_cons. intros [Hx Hl]%NoDup_cons.
  rewrite filter_cons. destruct (decide (f x = k)) as [Hk|]; [|by apply IH].
  rewrite (filter_none (λ x0, f x0 = k)); [simpl; lia|].
  intros y Hy Hyk. apply Hx. apply list_elem_of_fmap. exists y. split; congruence.
Qed.

Lemma filter_within (P Q : A → Prop) `{∀ x, Decision (P x)} `{∀ x, Decision (Q x)} l :
  (∀ x, x ∈ l → P x → Q x) → filter P l = filter P (filter Q l).
Proof.
  induction l as [|x l IH]; intros HPQ; [done|].
  rewrite (filter_cons Q). rewrite (filter_cons P x l).
  destruct (decide (P x)) as [HP|HP].
  - rewrite decide_True by (apply HPQ; [set_solver|done]).
    rewrite filter_cons_True by done. f_equal. apply IH. intros y ?. apply HPQ. set_solver.
  - destruct (decide (Q x)).
    + rewrite filter_cons_False by done. apply IH. intros y ?. apply HPQ. set_solver.
    + apply IH. intros y ?. apply HPQ. set_solver.
Qed.
End counting.

Lemma getChildKey_wrapInitial initial mode c :
  getChildKey (wrapInitial initial mode c) = getChildKey c.
Proof. by apply getChildKey_of_key. Qed.

(** The nodes a later pass returns have distinct keys if the target has. *)
Lemma renderedOf_keys_NoDup props s :
  table_ok (allChildren s) →
  NoDup (targetKeysOf props) →
  NoDup (getChildKey <$> renderedOf props s).
Proof.
  intros Htable Htarget. apply count_NoDup. intros k.
  destruct (decide (k ∈ targetKeysOf props)) as [Hk|Hk];
    [|by apply renderedOf_count].
  rewrite (filter_within getChildKey (λ e, getChildKey e = k) node_present).
  - rewrite renderedOf_present.
    2:{ intros k' c _ Hc. by apply Htable. }
    apply NoDup_count. rewrite <- list_fmap_compose.
    erewrite list_fmap_ext; [exact Htarget|].
    intros ? c _. apply getChildKey_wrapPresent.
  - intros e He Hek.
    destruct (renderedOf_nodes props s e Htable He)
      as [(c & _ & ->)|(key & child & Hkey & Hchild & ->)]; [done|].
    exfalso. rewrite getChildKey_exitingNode, (Htable key child Hchild) in Hek.
    subst key. by apply exitingOf_elem in Hkey as [_ ?].
Qed.

Lemma array_at_snoc r fs f :
  array_at r (fs ++ [f])
  = if decide (ref_pass r < length fs) then array_at r fs
    else if decide (ref_pass r = length fs) then
           match r with
           | filteredChildrenOf _ => filteredChildren f
           | renderedChildrenOf _ => renderedChildren f
           end
         else [].
Proof.
  destruct r as [q|q]; cbn [array_at ref_pass].
  - destruct (decide (q < length fs)); [by rewrite lookup_app_l|].
    destruct (decide (q = length fs)) as [->|].
    + by rewrite frames_lookup_new.
    + rewrite lookup_ge_None_2; [done|]. rewrite length_app. simpl. lia.
  - destruct (decide (q < length fs)); [by rewrite lookup_app_l|].
    destruct (decide (q = length fs)) as [->|].
    + by rewrite frames_lookup_new.
    + rewrite lookup_ge_None_2; [done|]. rewrite length_app. simpl. lia.
Qed.

Lemma pass_arrays_NoDup props s :
  table_ok (allChildren s) →
  NoDup (targetKeysOf props) →
  (∀ r, NoDup (getChildKey <$> array_at r (frames s))) →
  ∀ r, NoDup (getChildKey <$> array_at r (frames (pass props s).1)).
Proof.
  intros Htable Htarget Hold r.
  destruct (isInitialRender s) eqn:Hinit.
  - rewrite pass_first by done. cbn [fst frames]. rewrite array_at_snoc.
    repeat case_decide; [done| |constructor].
    destruct r; cbn [filteredChildren renderedChildren]; [done|constructor].
  - rewrite pass_later by done. cbn [fst frames]. rewrite array_at_snoc.
    repeat case_decide; [done| |constructor].
    destruct r; cbn [filteredChildren renderedChildren]; [done|].
    by apply renderedOf_keys_NoDup.
Qed.

Lemma onExits_arrays_NoDup cbs s :
  (∀ r, NoDup (getChildKey <$> array_at r (frames s))) →
  ∀ r, NoDup (getChildKey <$> array_at r (frames (onExits cbs s).1)).
Proof.
  intros Hold r. eapply sublist_NoDup; [apply Hold|].
  apply fmap_sublist, onExits_array_sublist.
Qed.

Lemma exec_arrays_NoDup sys op :
  sys_ok sys → key_contract op →
  (∀ r, NoDup (getChildKey <$> array_at r (frames (coordinator sys)))) →
  ∀ r, NoDup (getChildKey <$> array_at r (frames (coordinator (exec sys op)))).
Proof.
  intros [Htable _] Hop Hold.
  destruct op as [props|k childId|k childId|k childId]; simpl.
  - destruct (host_pass_fields props sys) as (cbs & evs & _ & -> & _).
    apply onExits_arrays_NoDup. by apply pass_arrays_NoDup.
  - unfold host_register. by destruct (instances sys !! k).
  - unfold host_unregister. by destruct (instances sys !! k).
  - destruct (instances sys !! k) as [i|] eqn:Hi.
    + destruct (host_reportDone_fields k childId sys i Hi) as (evs & -> & _).
      by apply onExits_arrays_NoDup.
    + unfold host_reportDone. by rewrite Hi.
Qed.

Lemma run_arrays_NoDup ops :
  Forall key_contract ops →
  ∀ r, NoDup (getChildKey <$> array_at r (frames (coordinator (run ops booted)))).
Proof.
  induction ops as [|op ops IH] using rev_ind; intros Hops r.
  { destruct r; constructor. }
  apply Forall_app in Hops as [Hops [Hop _]%Forall_cons].
  rewrite run_snoc. apply exec_arrays_NoDup; [|done|by apply IH].
  apply run_ok, booted_ok.
Qed.

(** X14: as long as every pass is handed children with distinct keys, the
    keys of the committed sequence are distinct in every state the host
    reaches, whatever the participants do in between, and every pass
    returns nodes with distinct keys: the exiting nodes it splices in never
    duplicate a key of the target or of another exiting node. *)
Theorem distinct_keys_are_kept (ops : list Op) (props : AnimatePresenceProps) :
  Forall key_contract ops →
  NoDup (targetKeysOf props) →
  NoDup (presentKeysOf (coordinator (run ops booted)))
  ∧ NoDup (getChildKey <$> (pass props (coordinator (run ops booted))).2).
Proof.
  intros Hops Htarget. split.
  - apply (run_arrays_NoDup ops Hops).
  - destruct (run_ok ops booted booted_ok) as [Htable _].
    destruct (isInitialRender (coordinator (run ops booted))) eqn:Hinit.
    + rewrite pass_first by done. cbn [snd]. rewrite <- list_fmap_compose.
      erewrite list_fmap_ext; [exact Htarget|].
      intros ? c _. apply getChildKey_wrapInitial.
    + rewrite pass_later by done. by apply renderedOf_keys_NoDup.
Qed.

Lemma distinct_keys_are_kept_scenarioA :
  NoDup (presentKeysOf (coordinator sys_exiting_b))
  ∧ NoDup (getChildKey <$> (pass (propsOf [el "c"]) (coordinator sys_exiting_b)).2).
Proof.
  apply (distinct_keys_are_kept
           [Pass (propsOf [el "a"; el "b"; el "c"]); Register "b" "r";
            Pass (propsOf [el "a"; el "c"])]
           (propsOf [el "c"])).
  - repeat constructor; compute_done.
  - compute_done.
Defined.

(** X7: as long as every pass is handed children with distinct keys, in a
    pass that classifies [k] as exiting while the [PresenceChild] of [k]
    holds at least one registered participant, the completion callback of
    [k] is not called; the pass requests no re-evaluation and calls no
    global exit callback, whatever the other exiting keys do; [k] stays in
    the exiting set; and the [PresenceChild] of [k] keeps every
    registration, marked as not done, with the completion callback of this
    pass in its context. The committed keys and the keys of the nodes the
    pass returns are distinct, so that every returned node has a
    [PresenceChild] of its own. *)
Theorem registered_participants_defer_exit
    (ops : list Op) (props : AnimatePresenceProps) (sys : System) (k : string)
    (child : ReactElement) (i : Instance) :
  Forall key_contract ops →
  sys = run ops booted →
  NoDup (targetKeysOf props) →
  k ∈ presentKeysOf (coordinator sys) →
  k ∉ targetKeysOf props →
  allChildren (coordinator sys) !! k = Some child →
  instances sys !! k = Some i →
  ctx_isPresent i = true →
  presenceChildren i ≠ ∅ →
  let sys' := host_pass props sys in
  (∀ cb, cb ∈ fired (since sys sys') → cb_key cb ≠ k)
  ∧ (∀ e, e ∈ since sys sys' → ∃ cb, e = Fired cb)
  ∧ k ∈ exitingSet (coordinator sys')
  ∧ (∃ i', instances sys' !! k = Some i'
          ∧ ctx_isPresent i' = false
          ∧ ctx_onExitComplete i'
            = Some (OnExit (length (frames (coordinator sys))) k)
          ∧ presenceChildren i' = (λ _, false) <$> presenceChildren i)
  ∧ NoDup (presentKeysOf (coordinator sys))
  ∧ NoDup (getChildKey <$> (pass props (coordinator sys)).2).
Proof.
  intros Hcontract Hrun Htarget Hp Ht Hc Hi Hpres Hreg sys'.
  assert (NoDup (presentKeysOf (coordinator sys))) as Hdistinct
    by (rewrite Hrun; apply (run_arrays_NoDup ops Hcontract)).
  assert (reachable sys) as [Htable Hinst]%reachable_ok by by exists ops.
  clear Hrun.
  destruct (Hinst k i Hi) as [Hlater _].
  pose proof (Htable k child Hc) as Hk.
  set (s := coordinator sys) in *. set (p := length (frames s)).
  pose proof (exitingNode_returned props s k child Hlater Hp Ht Hc Hk) as Hnode.
  (* the PresenceChild of [k] after the pass *)
  assert (∀ i', instances sys' !! k = Some i' →
            i' = MkInstance (resetAll (presenceChildren i)) false
                   (Some (OnExit p k)) None (props_custom props)) as Hafter.
  { intros i' Hi'.
    destruct (host_pass_fields props sys) as (? & ? & _ & _ & Hinsts & _).
    unfold sys' in Hi'. rewrite Hinsts in Hi'.
    apply reconcile_instance in Hi' as (ip & cbo & ini & cus & m & ch & Hin & ->).
    fold s in Hin. rewrite Hi.
    assert (ip = false ∧ cbo = Some (OnExit p k) ∧ ini = None
            ∧ cus = props_custom props) as (-> & -> & -> & ->).
    { rewrite pass_later in Hin by done. cbn [snd] in Hin.
      destruct (renderedOf_nodes props s _ Htable Hin)
        as [(c & Hc' & He)|(key & ch' & Hkey & Hch' & He)].
      - exfalso. unfold wrapPresent in He. injection He as ? ? ? ? ? ? ?; subst.
        apply Ht. apply list_elem_of_fmap. eauto.
      - unfold exitingNode, wrapExiting in He.
        injection He as Hkk ? ? ? ? ? ?.
        rewrite (Htable key ch' Hch') in Hkk. by subst. }
    unfold PresenceChild_render. by rewrite decide_False by by rewrite Hpres. }
  assert (∃ i', instances sys' !! k = Some i') as [i' Hi'].
  { destruct (host_pass_fields props sys) as (? & ? & _ & _ & Hinsts & _).
    unfold sys'. rewrite Hinsts. fold s.
    by eapply reconcile_mounts. }
  pose proof (Hafter i' Hi') as Hshape.
  (* the callbacks the pass calls *)
  assert (Forall (λ cb, cb_pass cb = p ∧ cb_key cb ≠ k) (fired (since sys sys')))
    as Hcbs.
  { apply Forall_forall. intros cb Hcb.
    split; [by apply (host_pass_fired props sys cb Htable)|].
    destruct (host_pass_fields props sys) as (cbs & evs & -> & _ & Hinsts & Htr & Hfired).
    unfold sys' in Hcb. rewrite (since_spec _ _ evs Htr), Hfired in Hcb.
    apply list_elem_of_omap in Hcb as ([[k' ip] cbo] & Heff & Hcb).
    unfold effect_callback in Hcb. rewrite <- Hinsts in Hcb.
    destruct (instances (host_pass props sys) !! k') as [i''|] eqn:Hi''; [|done].
    simpl in Hcb. unfold PresenceChild_effect in Hcb.
    destruct (negb ip && _) eqn:Hrun; [|done]. subst cbo.
    apply andb_prop in Hrun as [_ Hsize%bool_decide_eq_true_1].
    apply reconcile_effect in Heff as (ini & cus & m & ch & Hin & _).
    apply pass_output_callback in Hin as (_ & _ & -> & _ & _); [|done].
    cbn [cb_key]. intros ->.
    rewrite (Hafter i'' Hi'') in Hsize. cbn [presenceChildren] in Hsize.
    apply map_size_empty_iff in Hsize. unfold resetAll in Hsize.
    apply fmap_empty_inv in Hsize. done. }
  assert (k ∈ exiting_at p (frames (pass props s).1)) as Hex.
  { unfold p. rewrite <- (pass_latest props s).
    change (k ∈ exitingSet (pass props s).1).
    rewrite pass_exitingSet, Hlater. by apply exitingOf_elem. }
  destruct (onExits_blocked p k (fired (since sys sys')) (pass props s).1)
    as [Hsilent Hstays]; [rewrite pass_length; unfold p; lia|done|done|].
  split_and!.
  - intros cb Hcb. by eapply Forall_forall in Hcbs as [_ ?].
  - intros e He. apply host_pass_events in He as [|He]; [done|].
    fold s sys' in He. rewrite Hsilent in He. by apply elem_of_nil in He.
  - destruct (host_pass_fields props sys) as (cbs & evs & -> & Hcoord & _ & Htr & Hfired).
    unfold sys' in *. rewrite (since_spec _ _ evs Htr), Hfired in Hstays.
    rewrite Hcoord. fold s. unfold exitingSet, latest.
    rewrite onExits_length, pass_length. exact Hstays.
  - exists i'. split; [done|]. rewrite Hshape. by split_and!.
  - done.
  - rewrite pass_later by done. by apply renderedOf_keys_NoDup.
Qed.

Lemma registered_participants_defer_exit_scenarioA :
  let sys := host_register "b" "r" sys_abc in
  let sys' := host_pass (propsOf [el "a"; el "c"]) sys in
  (∀ cb, cb ∈ fired (since sys sys') → cb_key cb ≠ "b")
  ∧ (∀ e, e ∈ since sys sys' → ∃ cb, e = Fired cb)
  ∧ "b" ∈ exitingSet (coordinator sys')
  ∧ (∃ i', instances sys' !! "b" = Some i'
          ∧ ctx_isPresent i' = false
          ∧ ctx_onExitComplete i' = Some (OnExit (length (frames (coordinator sys))) "b")
          ∧ presenceChildren i'
            = (λ _, false) <$> presenceChildren (MkInstance {["r" := false]} true None None None))
  ∧ NoDup (presentKeysOf (coordinator sys))
  ∧ NoDup (getChildKey <$> (pass (propsOf [el "a"; el "c"]) (coordinator sys)).2).
Proof.
  apply (registered_participants_defer_exit
           [Pass (propsOf [el "a"; el "b"; el "c"]); Register "b" "r"]
           (propsOf [el "a"; el "c"]) (host_register "b" "r" sys_abc) "b" (el "b")
           (MkInstance {["r" := false]} true None None None)).
  - repeat constructor; compute_done.
  - reflexivity.
  - compute_done.
  - compute_done.
  - compute_done.
  - reflexivity.
  - reflexivity.
  - reflexivity.
  - compute_done.
Defined.

(** ** A whole exit *)

Lemma Set_delete_filter k ks ex :
  Set_delete k (filter (λ k', k' ∉ ks) ex) = filter (λ k', k' ∉ ks ++ [k]) ex.
Proof.
  unfold Set_delete. induction ex as [|x ex IH]; [done|].
  rewrite (filter_cons (λ k', k' ∉ ks)), (filter_cons (λ k', k' ∉ ks ++ [k])).
  destruct (decide (x ∉ ks)) as [Hx|Hx].
  - rewrite filter_cons. destruct (decide (x ≠ k)) as [Hk|Hk].
    + rewrite decide_True by set_solver. by rewrite IH.
    + rewrite decide_False by set_solver. done.
  - rewrite decide_False by set_solver. done.
Qed.

Lemma filter_all {A} (P : A → Prop) `{∀ x, Decision (P x)} (l : list A) :
  (∀ x, x ∈ l → P x) → filter P l = l.
Proof.
  induction l as [|x l IH]; intros HP; [done|].
  rewrite filter_cons_True by (apply HP; set_solver).
  f_equal. apply IH. intros y ?. apply HP. set_solver.
Qed.

Lemma onExits_nil s : onExits [] s = (s, []).
Proof. done. Qed.

(** The callbacks of one pass [p], for the keys [ks], while the committed
    sequence is not the target array of [p]. *)
Lemma onExits_same_pass p ks s :
  p < length (frames s) →
  presentChildren s ≠ filteredChildrenOf p →
  exiting_at p (frames (onExits (OnExit p <$> ks) s).1)
  = filter (λ k, k ∉ ks) (exiting_at p (frames s))
  ∧ (∀ k, allChildren (onExits (OnExit p <$> ks) s).1 !! k
          = if decide (k ∈ ks) then None else allChildren s !! k)
  ∧ onExitCompleteProp_at p (frames (onExits (OnExit p <$> ks) s).1)
    = onExitCompleteProp_at p (frames s)
  ∧ (filter (λ k, k ∉ ks) (exiting_at p (frames s)) ≠ [] →
     (onExits (OnExit p <$> ks) s).2 = []
     ∧ presentChildren (onExits (OnExit p <$> ks) s).1 = presentChildren s
     ∧ target_at p (frames (onExits (OnExit p <$> ks) s).1) = target_at p (frames s)).
Proof.
  intros Hp Hptr. induction ks as [|k ks IH] using rev_ind.
  { cbn [fmap list_fmap]. rewrite onExits_nil. cbn [fst snd].
    split_and!; [|done..].
    symmetry. apply (filter_all (λ k, k ∉ [])). intros k _. by apply not_elem_of_nil. }
  destruct IH as (Hex & Hall & Hprop & Hquiet).
  rewrite fmap_app. cbn [fmap list_fmap]. rewrite onExits_snoc. cbn [fst snd].
  set (r := onExits (OnExit p <$> ks) s) in *.
  assert (cb_pass (OnExit p k) < length (frames r.1)) as Hissued
    by (unfold r; rewrite onExits_length; done).
  assert (exiting_at p (frames (onExit (OnExit p k) r.1).1)
          = filter (λ k', k' ∉ ks ++ [k]) (exiting_at p (frames s))) as Hex'.
  { rewrite onExit_exiting_at, decide_True by done.
    cbn [cb_pass cb_key]. by rewrite Hex, Set_delete_filter. }
  split_and!; [done| | |].
  - intros k'. rewrite onExit_allChildren by done. cbn [cb_key].
    destruct (decide (k' = k)) as [->|Hne].
    + rewrite lookup_delete_eq, decide_True; [done|set_solver].
    + rewrite lookup_delete_ne, Hall by done. apply decide_ext. set_solver.
  - by rewrite onExit_onExitCompleteProp_at.
  - intros Hleft.
    assert (filter (λ k', k' ∉ ks) (exiting_at p (frames s)) ≠ []) as Hbefore.
    { intros Hnil. apply Hleft. by rewrite <- Set_delete_filter, Hnil. }
    destruct (Hquiet Hbefore) as (Hevs & Hsame & Htarget).
    rewrite Hevs. cbn [app].
    assert (Set_delete k (exiting_at p (frames r.1)) ≠ []) as Hstill
      by by rewrite Hex, Set_delete_filter.
    rewrite onExit_unfold by done. cbn [fst snd presentChildren frames cb_pass cb_key].
    destruct (decide (Set_delete k (exiting_at p (frames r.1)) = [])) as [?|_]; [done|].
    split_and!; [done..|].
    unfold target_at in *.
    rewrite array_at_set_ne, array_at_set_exiting by by rewrite Hsame.
    exact Htarget.
Qed.

(** X15: once the completion callback of the latest pass has run for each
    key of its exiting set, in whatever order, exactly one re-evaluation
    has been requested and the global exit callback of that pass has been
    called exactly once, both by the last of these callbacks and none by
    the earlier ones; the committed sequence is then the target of the
    pass, the exiting set is empty, the table has lost the exiting keys and
    no other; and the re-evaluation, handed the same children, returns the
    present nodes of the target and nothing else. *)
Theorem exits_complete_exactly_once
    (props props' : AnimatePresenceProps) (s : Coordinator) (ks : list string) :
  isInitialRender s = false →
  ks ≡ₚ exitingOf props s →
  ks ≠ [] →
  props_children props' = props_children props →
  let left := onExits (OnExit (length (frames s)) <$> ks) (pass props s).1 in
  left.2 = ForceRender :: match props_onExitComplete props with
                          | Some g => [ExitComplete g]
                          | None => []
                          end
  ∧ (∀ n, 0 < n < length ks →
          (onExits (OnExit (length (frames s)) <$> take n ks) (pass props s).1).2 = [])
  ∧ committed left.1 = onlyElements (props_children props)
  ∧ exitingSet left.1 = []
  ∧ (∀ k, allChildren left.1 !! k
          = if decide (k ∈ ks) then None else allChildren (pass props s).1 !! k)
  ∧ (pass props' left.1).2
    = wrapPresent (props_mode props') <$> onlyElements (props_children props)
  ∧ exitingSet (pass props' left.1).1 = [].
Proof.
  intros Hlater Hperm Hne Hsame left.
  set (p := length (frames s)) in *. set (s1 := (pass props s).1) in *.
  assert (p < length (frames s1)) as Hp
    by (unfold s1; rewrite pass_length; unfold p; lia).
  assert (presentChildren s1 = renderedChildrenOf p) as Hptr
    by (unfold s1; by rewrite pass_presentChildren, Hlater).
  assert (presentChildren s1 ≠ filteredChildrenOf p) as Hneq by by rewrite Hptr.
  assert (exiting_at p (frames s1) = exitingOf props s) as Hex.
  { unfold s1, p. rewrite <- (pass_latest props s).
    change (exitingSet (pass props s).1 = exitingOf props s).
    by rewrite pass_exitingSet, Hlater. }
  assert (target_at p (frames s1) = onlyElements (props_children props)) as Htarget
    by (unfold s1, p; rewrite <- (pass_latest props s); apply pass_target_at).
  assert (NoDup ks) as Hnodup by (rewrite Hperm; apply markExiting_NoDup).
  (* before the last callback *)
  assert (∀ ks0 k ks1, ks = ks0 ++ k :: ks1 →
            filter (λ k', k' ∉ ks0) (exiting_at p (frames s1)) ≠ []) as Hpending.
  { intros ks0 k ks1 Hks Hnil.
    assert (k ∈ filter (λ k', k' ∉ ks0) (exiting_at p (frames s1))) as Hin.
    { apply list_elem_of_filter. split.
      - rewrite Hks in Hnodup. apply NoDup_app in Hnodup as (_ & Hdisj & _).
        intros Hk0. apply (Hdisj k Hk0). set_solver.
      - rewrite Hex, <- Hperm, Hks. set_solver. }
    rewrite Hnil in Hin. by apply elem_of_nil in Hin. }
  destruct (onExits_same_pass p ks s1 Hp Hneq) as (Hexl & Hall & _ & _).
  fold left in Hexl, Hall.
  assert (exiting_at p (frames left.1) = []) as Hdrained.
  { rewrite Hexl. apply (filter_none (λ k', k' ∉ ks)).
    intros k Hk Hnot. apply Hnot. by rewrite Hperm, <- Hex. }
  (* the last callback *)
  destruct (exists_last Hne) as (ks0 & k & Hks).
  destruct (onExits_same_pass p ks0 s1 Hp Hneq) as (Hex0 & _ & Hprop0 & Hquiet0).
  destruct (Hquiet0 (Hpending ks0 k [] Hks)) as (Hevs0 & Hptr0 & Htarget0).
  set (r0 := onExits (OnExit p <$> ks0) s1) in *.
  assert (left = ((onExit (OnExit p k) r0.1).1, r0.2 ++ (onExit (OnExit p k) r0.1).2))
    as Hleft.
  { unfold left. rewrite Hks, fmap_app. cbn [fmap list_fmap]. apply onExits_snoc. }
  assert (cb_pass (OnExit p k) < length (frames r0.1)) as Hissued
    by (unfold r0; rewrite onExits_length; done).
  assert (Set_delete k (exiting_at p (frames r0.1)) = []) as Hlast.
  { rewrite <- Hdrained, Hleft. cbn [fst].
    by rewrite onExit_exiting_at, decide_True by done. }
  assert (committed left.1 = onlyElements (props_children props)) as Hcommitted.
  { rewrite Hleft. cbn [fst].
    rewrite onExit_committed; [|done|by rewrite Hptr0, Hptr].
    cbn [cb_pass cb_key]. rewrite decide_True by done.
    rewrite onExit_target_at by by rewrite Hptr0.
    by rewrite Htarget0. }
  assert (isInitialRender left.1 = false) as Hinit.
  { unfold left. rewrite onExits_isInitialRender. apply pass_isInitialRender. }
  assert (exitingOf props' left.1 = []) as Hnone.
  { apply markExiting_empty. unfold presentKeysOf, targetKeysOf.
    by rewrite Hcommitted, Hsame. }
  split_and!.
  - rewrite Hleft. cbn [snd]. rewrite Hevs0. cbn [app].
    rewrite onExit_unfold by done. cbn [snd cb_pass cb_key].
    rewrite decide_True by done.
    replace (isMounted r0.1) with true.
    2:{ unfold r0. rewrite onExits_isMounted. unfold s1.
        by rewrite pass_later by done. }
    rewrite Hprop0. unfold s1, p, onExitCompleteProp_at.
    rewrite pass_later by done. cbn [fst frames].
    by rewrite frames_lookup_new.
  - intros n [Hn0 Hn].
    destruct (onExits_same_pass p (take n ks) s1 Hp Hneq) as (_ & _ & _ & Hquiet).
    apply Hquiet.
    destruct (drop n ks) as [|k' ks1] eqn:Hdrop.
    { apply (f_equal length) in Hdrop. rewrite length_drop in Hdrop. simpl in Hdrop. lia. }
    apply (Hpending (take n ks) k' ks1). by rewrite <- Hdrop, take_drop.
  - done.
  - unfold exitingSet, latest. unfold left.
    rewrite onExits_length. fold left.
    replace (pred (length (frames s1))) with p; [done|].
    unfold s1. rewrite pass_length. done.
  - done.
  - rewrite pass_later by done. cbn [snd].
    rewrite renderedOf_no_exits by done. by rewrite Hsame.
  - by rewrite pass_exitingSet, Hinit.
Qed.

Lemma exits_complete_exactly_once_xy :
  let props := propsOf [el "a"] in
  let s := (pass (propsOf [el "x"; el "a"; el "y"]) mounted).1 in
  let left := onExits (OnExit (length (frames s)) <$> ["y"; "x"]) (pass props s).1 in
  left.2 = ForceRender :: match props_onExitComplete props with
                          | Some g => [ExitComplete g]
                          | None => []
                          end
  ∧ (∀ n, 0 < n < length ["y"; "x"] →
          (onExits (OnExit (length (frames s)) <$> take n ["y"; "x"]) (pass props s).1).2 = [])
  ∧ committed left.1 = onlyElements (props_children props)
  ∧ exitingSet left.1 = []
  ∧ (∀ k, allChildren left.1 !! k
          = if decide (k ∈ ["y"; "x"]) then None else allChildren (pass props s).1 !! k)
  ∧ (pass props left.1).2
    = wrapPresent (props_mode props) <$> onlyElements (props_children props)
  ∧ exitingSet (pass props left.1).1 = [].
Proof.
  apply (exits_complete_exactly_once (propsOf [el "a"]) (propsOf [el "a"])
           (pass (propsOf [el "x"; el "a"; el "y"]) mounted).1 ["y"; "x"]).
  - reflexivity.
  - change (["y"; "x"] ≡ₚ ["x"; "y"]). apply Permutation_swap.
  - done.
  - reflexivity.
Defined.

(** ** The committed sequence *)

(** X16: the keys of the committed sequence are, after every pass, the keys
    of the nodes the pass returned, in the same order: the initial pass
    commits the children themselves and a later pass the nodes it
    returned, so the next diff compares the target with what was rendered
    last. *)
Theorem committed_keys_are_returned_keys
    (props : AnimatePresenceProps) (s : Coordinator) :
  presentKeysOf (pass props s).1 = getChildKey <$> (pass props s).2.
Proof.
  unfold presentKeysOf. destruct (isInitialRender s) eqn:Hinit.
  - rewrite pass_committed_first, pass_first by done. cbn [snd].
    rewrite <- list_fmap_compose. apply list_fmap_ext.
    intros ? c _. symmetry. apply getChildKey_wrapInitial.
  - by rewrite pass_committed_later, pass_later by done.
Qed.

(** X17: a completion callback that runs for a key without a node in the
    committed sequence, while its pass still has other keys exiting, takes
    the last node off the committed sequence, whatever its key:
    [findIndex] answers [-1], and [splice(-1, 1)] counts from the end. *)
Theorem callback_without_node_drops_last (cb : Callback) (s : Coordinator) :
  cb_pass cb < length (frames s) →
  ref_pass (presentChildren s) < length (frames s) →
  Forall (λ e, element_key e ≠ Some (cb_key cb)) (committed s) →
  Set_delete (cb_key cb) (exiting_at (cb_pass cb) (frames s)) ≠ [] →
  committed (onExit cb s).1 = take (pred (length (committed s))) (committed s)
  ∧ (onExit cb s).2 = [].
Proof.
  intros Hp Href Hnone Hleft. split.
  - rewrite onExit_committed by done.
    rewrite decide_False by done.
    assert (findIndex (λ e, element_key e = Some (cb_key cb)) (committed s)
            = (-1)%Z) as -> by by apply findIndex_missing.
    apply splice_remove_last.
  - rewrite onExit_unfold by done. cbn [snd]. by rewrite decide_False by done.
Qed.

Lemma callback_without_node_drops_last_bx :
  let s := (onExit (OnExit 1 "b")
              (pass (propsOf []) (pass (propsOf [el "b"; el "x"]) mounted).1).1).1 in
  committed (onExit (OnExit 1 "b") s).1 = take (pred (length (committed s))) (committed s)
  ∧ (onExit (OnExit 1 "b") s).2 = [].
Proof.
  apply (callback_without_node_drops_last (OnExit 1 "b")
           (onExit (OnExit 1 "b")
              (pass (propsOf []) (pass (propsOf [el "b"; el "x"]) mounted).1).1).1).
  - vm_compute. lia.
  - vm_compute. lia.
  - repeat constructor; compute_done.
  - compute_done.
Defined.

(** ** Exits under way *)

(** X18: a pass never completes an exit that was already under way before
    it. If the [PresenceChild] of [k] was exiting before the pass, the pass
    calls no completion callback of [k], whatever its target and even if
    the registry of [k] has become empty in the meantime (its participants
    having unregistered): the effect of line 288 runs only when
    [isPresent] changes. *)
Theorem pass_never_completes_running_exit
    (props : AnimatePresenceProps) (sys : System) (k : string) (i : Instance)
    (cb : Callback) :
  reachable sys →
  instances sys !! k = Some i →
  ctx_isPresent i = false →
  cb ∈ fired (since sys (host_pass props sys)) →
  cb_key cb ≠ k.
Proof.
  intros [Htable _]%reachable_ok Hi Hexiting Hcb.
  destruct (host_pass_fields props sys) as (cbs & evs & -> & _ & _ & Htr & Hfired).
  rewrite (since_spec _ _ evs Htr), Hfired in Hcb.
  apply list_elem_of_omap in Hcb as ([[k' ip] cbo] & Heff & Hcb).
  unfold effect_callback in Hcb.
  destruct (_ !! k') as [i'|]; [|done]. simpl in Hcb.
  unfold PresenceChild_effect in Hcb.
  destruct (negb ip && _) eqn:Hrun; [|done]. subst cbo.
  apply andb_prop in Hrun as [Hip _]. destruct ip; [done|].
  apply reconcile_effect in Heff as (ini & cus & m & ch & Hin & Hflip).
  apply pass_output_callback in Hin as (_ & _ & -> & _ & _); [|done].
  cbn [cb_key]. intros ->.
  rewrite Hi in Hflip. unfold PresenceChild_render in Hflip.
  by rewrite decide_True in Hflip by done.
Qed.

Lemma pass_never_completes_running_exit_unregistered :
  let sys := host_unregister "b" "r" sys_exiting_b in
  OnExit 2 "a" ∈ fired (since sys (host_pass (propsOf [el "c"]) sys))
  ∧ cb_key (OnExit 2 "a") ≠ "b".
Proof.
  split; [compute_done|].
  apply (pass_never_completes_running_exit (propsOf [el "c"])
           (host_unregister "b" "r" sys_exiting_b) "b"
           (MkInstance ∅ false (Some (OnExit 1 "b")) None None) (OnExit 2 "a")).
  - exists [Pass (propsOf [el "a"; el "b"; el "c"]); Register "b" "r";
            Pass (propsOf [el "a"; el "c"]); Unregister "b" "r"].
    reflexivity.
  - reflexivity.
  - reflexivity.
  - compute_done.
Defined.

Lemma run_reports k ids sys i :
  instances sys !! k = Some i →
  instances (run (ReportDone k <$> ids) sys) !! k = Some (reports ids i).1
  ∧ ∃ evs, trace (run (ReportDone k <$> ids) sys) = trace sys ++ evs
           ∧ fired evs = omap id (reports ids i).2.
Proof.
  intros Hi. induction ids as [|childId ids IH] using rev_ind.
  { split; [done|]. exists []. by rewrite app_nil_r. }
  destruct IH as (Hinst & evs & Htr & Hfired).
  rewrite fmap_app. cbn [fmap list_fmap]. rewrite run_snoc. cbn [exec].
  destruct (host_reportDone_fields k childId _ _ Hinst) as (evs' & _ & -> & -> & Hfired').
  rewrite reports_snoc. cbn [fst snd]. split.
  - by rewrite lookup_insert_eq.
  - exists (evs ++ evs'). rewrite Htr, app_assoc. split; [done|].
    rewrite fired_app, omap_app, Hfired, Hfired'. by f_equal.
Qed.

(** X19: when the participants an exiting [PresenceChild] still waits for
    report done, each once and no one else, in whatever order, the
    completion callback of the key is called exactly once, by the last of
    the reports. *)
Theorem reports_of_all_participants_complete_exit
    (sys : System) (k : string) (i : Instance) (cb : Callback) (ids : list string) :
  instances sys !! k = Some i →
  ctx_onExitComplete i = Some cb →
  NoDup ids →
  ids ≠ [] →
  (∀ childId, childId ∈ ids ↔ presenceChildren i !! childId = Some false) →
  fired (since sys (run (ReportDone k <$> ids) sys)) = [cb]
  ∧ ∀ n, n < length ids →
         fired (since sys (run (ReportDone k <$> take n ids) sys)) = [].
Proof.
  intros Hi Hcb Hnodup Hne Hpending.
  assert (∀ n, n ≤ length ids →
            omap id (reports (take n ids) i).2
            = if decide (n = length ids) then [cb] else []) as Hcalls.
  { intros n Hn. induction n as [|n IH].
    { rewrite decide_False; [done|]. destruct ids; [done|]. simpl. lia. }
    destruct (lookup_lt_is_Some_2 ids n) as [childId Hid]; [lia|].
    rewrite (take_S_r _ _ _ Hid), reports_snoc. cbn [snd].
    rewrite omap_app, IH by lia. rewrite decide_False by lia. cbn [app].
    rewrite context_onExitComplete_fires, reports_context, Hcb.
    assert (∀ other, other ≠ childId →
              <[childId:=true]> (presenceChildren (reports (take n ids) i).1) !! other
              = if decide (other ∈ take n ids) then Some true
                else presenceChildren i !! other) as Hreg.
    { intros other Hother. by rewrite lookup_insert_ne, reports_registry by done. }
    destruct (decide (S n = length ids)) as [Hall|Hmore].
    - rewrite decide_True; [done|].
      intros other done. destruct (decide (other = childId)) as [->|Hother].
      { rewrite lookup_insert_eq. congruence. }
      rewrite Hreg by done.
      destruct (decide (other ∈ take n ids)); [congruence|].
      intros Hwaits. destruct done; [done|].
      apply Hpending in Hwaits.
      rewrite <- (take_ge ids (S n)), (take_S_r _ _ _ Hid) in Hwaits by lia.
      set_solver.
    - rewrite decide_False; [done|].
      intros Hall.
      destruct (lookup_lt_is_Some_2 ids (S n)) as [late Hlate]; [lia|].
      assert (presenceChildren i !! late = Some false) as Hwaits
        by (apply Hpending; by eapply list_elem_of_lookup_2).
      assert (late ≠ childId) as Hother.
      { intros ->. pose proof (NoDup_lookup _ _ _ _ Hnodup Hid Hlate). lia. }
      assert (late ∉ take n ids) as Hnot.
      { intros [j Hj]%list_elem_of_lookup.
        assert (j < n) as Hjn
          by (apply lookup_lt_Some in Hj; rewrite length_take in Hj; lia).
        rewrite lookup_take_lt in Hj by done.
        pose proof (NoDup_lookup _ _ _ _ Hnodup Hj Hlate). lia. }
      specialize (Hall late false).
      rewrite Hreg, decide_False in Hall by done. by specialize (Hall Hwaits). }
  assert (∀ n, n ≤ length ids →
            fired (since sys (run (ReportDone k <$> take n ids) sys))
            = if decide (n = length ids) then [cb] else []) as Hfired.
  { intros n Hn.
    destruct (run_reports k (take n ids) sys i Hi) as (_ & evs & Htr & Hevs).
    by rewrite (since_spec _ _ evs Htr), Hevs, Hcalls. }
  split.
  - rewrite <- (firstn_all ids) at 1. rewrite Hfired by done. by rewrite decide_True.
  - intros n Hn. rewrite Hfired by lia. by rewrite decide_False by lia.
Qed.

Lemma reports_of_all_participants_complete_exit_qr :
  let sys := run [Pass (propsOf [el "a"; el "b"]); Register "b" "q"; Register "b" "r";
                  Pass (propsOf [el "a"])] booted in
  fired (since sys (run (ReportDone "b" <$> ["r"; "q"]) sys)) = [OnExit 1 "b"]
  ∧ ∀ n, n < length ["r"; "q"] →
         fired (since sys (run (ReportDone "b" <$> take n ["r"; "q"]) sys)) = [].
Proof.
  apply (reports_of_all_participants_complete_exit
           (run [Pass (propsOf [el "a"; el "b"]); Register "b" "q"; Register "b" "r";
                 Pass (propsOf [el "a"])] booted)
           "b" (MkInstance {["q" := false; "r" := false]} false (Some (OnExit 1 "b"))
                  None None)).
  - reflexivity.
  - reflexivity.
  - repeat constructor; compute_done.
  - done.
  - intros childId. split.
    + intros Hin. repeat (apply elem_of_cons in Hin as [->|Hin]); [reflexivity..|].
      by apply elem_of_nil in Hin.
    + intros Hin. destruct (decide (childId = "r")) as [->|Hr]; [compute_done|].
      destruct (decide (childId = "q")) as [->|Hq]; [compute_done|].
      cbn [presenceChildren] in Hin.
      by rewrite lookup_insert_ne, lookup_singleton_ne in Hin by done.
Defined.

(** ** How many nodes a pass returns *)

(** X20: when the committed keys are distinct and the table holds a
    descriptor for every key that exits, a later pass returns one node per
    child of the target and one node per key of its exiting set, no more
    and no fewer: no exiting key is dropped and none is rendered twice. *)
Theorem later_pass_returns_target_and_exiting
    (props : AnimatePresenceProps) (s : Coordinator) :
  isInitialRender s = false →
  NoDup (presentKeysOf s) →
  (∀ k, k ∈ exitingOf props s →
        ∃ c, allChildren s !! k = Some c ∧ getChildKey c = k) →
  length (pass props s).2
  = length (onlyElements (props_children props))
    + length (exitingSet (pass props s).1)
  ∧ length (filter node_present (pass props s).2)
    = length (onlyElements (props_children props)).
Proof.
  intros Hlater Hdistinct Hdescribed.
  rewrite pass_exitingSet, Hlater, pass_later by done. cbn [snd]. split.
  - unfold renderedOf. rewrite length_fmap, splicedOf_length by done.
    unfold targetKeysOf. by rewrite length_fmap.
  - rewrite renderedOf_present, length_fmap; [done|].
    intros k c Hk Hc. destruct (Hdescribed k Hk) as (c' & Hc' & Hkey). congruence.
Qed.

Lemma later_pass_returns_target_and_exiting_scenarioA :
  length (pass (propsOf [el "a"; el "c"]) committed_abc).2
  = length (onlyElements (props_children (propsOf [el "a"; el "c"])))
    + length (exitingSet (pass (propsOf [el "a"; el "c"]) committed_abc).1)
  ∧ length (filter node_present (pass (propsOf [el "a"; el "c"]) committed_abc).2)
    = length (onlyElements (props_children (propsOf [el "a"; el "c"]))).
Proof.
  apply (later_pass_returns_target_and_exiting (propsOf [el "a"; el "c"]) committed_abc).
  - reflexivity.
  - compute_done.
  - intros k Hk.
    assert (k = "b") as -> by (vm_compute in Hk; set_solver).
    exists (el "b"). split; reflexivity.
Defined.
